(** * yamlpath: the document matcher (yaml_paths) and the merge command
      (yaml_merge)

    A shallow embedding of [src/yamlpath/commands/yaml_paths.py] and
    [src/yamlpath/commands/yaml_merge.py].

    - [YamlPaths] embeds [search_for_paths], the recursive generator that
      walks a ruamel document and yields the YAML Paths of the nodes matching
      a search expression.
    - [YamlMerge] embeds [validateargs], [process_rhs], [process_multidoc]
      and [main] of the merge command over an explicit environment (file
      system tests, the YAML loader, the merger) and a log of the actions
      performed. *)

From Stdlib Require Import List String Ascii Bool Arith Lia.
From Stdlib Require Import DecimalString.
Import ListNotations.
Local Open Scope list_scope.
Local Open Scope string_scope.

(* ================================================================== *)
(** * yaml_paths.py *)
(* ================================================================== *)

Module YamlPaths.

(** ** Data model *)

(** Modelled from the spec: [yamlpath.enums.PathSeperators] is imported, not
    defined, by yaml_paths.py; the spec names the two separators, [.] and
    [/]. *)
Inductive PathSeperators := DOT | FSLASH.

(** [str(pathsep)]; the separators are one-character strings, held as the
    character. *)
Definition strsep (pathsep : PathSeperators) : ascii :=
  match pathsep with DOT => "."%char | FSLASH => "/"%char end.

Definition is_FSLASH (pathsep : PathSeperators) : bool :=
  match pathsep with FSLASH => true | DOT => false end.

(** A scalar as ruamel loads it: its text and, when the node is an anchor or
    an alias of one, the anchor's name ([hasattr(x, "anchor") and
    x.anchor.value is not None]).  An alias is the very object its anchor
    names, so both carry the same name.  Mapping keys are scalars too. *)
Record Scalar := mkScalar { anchor : option string; text : string }.

(** A document node.  A [CommentedMap] holds its entries in order; an entry
    is flagged [true] when the mapping owns it and [false] when it only
    comes from a YAML merge key: [items()] runs over all of them,
    [non_merged_items()] over the owned ones. *)
#[local] Unset Elimination Schemes.
Inductive Node :=
| NScalar (s : Scalar)
| CommentedSeq (a : option string) (items : list Node)
| CommentedMap (a : option string) (entries : list (bool * Scalar * Node)).
#[local] Set Elimination Schemes.

Definition node_anchor (n : Node) : option string :=
  match n with
  | NScalar s => anchor s
  | CommentedSeq a _ => a
  | CommentedMap a _ => a
  end.

(** A YAML Path, as the string [YAMLPath(...)] is built from. *)
Definition YAMLPath := string.

(** [yamlpath.path.SearchTerms]: the fields the matcher reads. *)
Record SearchTerms (Method : Type) := mkTerms {
  inverted : bool;
  method : Method;
  term : string
}.
Arguments mkTerms {Method}.
Arguments inverted {Method}.
Arguments method {Method}.
Arguments term {Method}.

(** What a run of the generator does that can be observed: a call of
    [search_matches] on a candidate (a key, a mapping value or a sequence
    element, at the path built for it), and a [yield]. *)
Inductive Role := RKey | RValue | RElement.

Record Candidate := mkCand { role : Role; path : YAMLPath; hay : Scalar }.

Inductive Event :=
| Tested (c : Candidate)
| Yielded (p : YAMLPath).

(** ** Helpers of [yamlpath.func] *)

(** Modelled from the spec: [ensure_escaped] lives in [yamlpath.func], which
    is not part of the sources at hand.  The spec says that literal
    occurrences of a character to protect are backslash-escaped; the call
    names the character.  Every occurrence of [symbol] in [value] gets a
    backslash in front of it.  The spec does not say what becomes of an
    occurrence that has a backslash before it already; what is proved of
    the escaping is proved of values that hold no backslash. *)
Fixpoint ensure_escaped (value : string) (symbol : ascii) : string :=
  match value with
  | EmptyString => EmptyString
  | String c rest =>
      if Ascii.eqb c symbol
      then String "\"%char (String c (ensure_escaped rest symbol))
      else String c (ensure_escaped rest symbol)
  end.

(** The rendering of an anchor name inside a path:
    [ensure_escaped(anchor_name, strsep)]. *)
Definition anchor_segment (pathsep : PathSeperators) (anchor_name : string)
  : string :=
  ensure_escaped anchor_name (strsep pathsep).

(** The rendering of a key inside a path:
    [ensure_escaped(ensure_escaped(key, "\\"), strsep)]. *)
Definition key_segment (pathsep : PathSeperators) (key : Scalar) : string :=
  ensure_escaped (ensure_escaped (text key) "\"%char) (strsep pathsep).






(** [str(idx)] *)
Definition str_nat (n : nat) : string := NilZero.string_of_uint (Nat.to_uint n).

(** [anchor_name in seen_anchors] *)
Definition seen_in (a : string) (seen_anchors : list string) : bool :=
  existsb (String.eqb a) seen_anchors.

(** ** [search_for_paths] *)

Section Search.

Context {Method : Type}.
(** [yamlpath.func.search_matches], imported by yaml_paths.py. *)
Variable search_matches : Method -> string -> Scalar -> bool.

Variable terms : SearchTerms Method.
Variable pathsep : PathSeperators.
(** The keyword arguments. *)
Variable search_values : bool.
Variable search_keys : bool.
Variable include_aliases : bool.

(** [matches = search_matches(method, term, x)] followed by
    [if (matches and not invert) or (invert and not matches): yield
    YAMLPath(tmp_path)]. *)
Definition yields_on (x : Scalar) : bool :=
  let invert := inverted terms in
  let matches := search_matches (method terms) (term terms) x in
  (matches && negb invert) || (invert && negb matches).

Definition test_and_yield (r : Role) (tmp_path : string) (x : Scalar)
  : list Event :=
  Tested (mkCand r tmp_path x)
  :: (if yields_on x then [Yielded tmp_path] else []).

(** The recursive call, abstracted so that the two loops can be stated on
    their own; [search_for_paths_trace] below ties the knot. *)
Variable recurse : Node -> string -> list Event.

(** One iteration of [for idx, ele in enumerate(data)].  The result is the
    updated [seen_anchors] and what the iteration did; [continue] leaves the
    iteration with nothing done. *)
Definition seq_body (build_path : string) (seen_anchors : list string)
           (idx : nat) (ele : Node) : list string * list Event :=
  let visit (tmp_path : string) : list Event :=
    match ele with
    | NScalar s =>
        if search_values then test_and_yield RElement tmp_path s else []
    | _ => recurse ele tmp_path
    end in
  match node_anchor ele with
  | Some anchor_name =>
      let tmp_path :=
        build_path ++ "&" ++ anchor_segment pathsep anchor_name ++ "]" in
      if seen_in anchor_name seen_anchors then
        if negb include_aliases then (seen_anchors, [])
        else (seen_anchors, visit tmp_path)
      else ((seen_anchors ++ [anchor_name])%list, visit tmp_path)
  | None =>
      (seen_anchors, visit (build_path ++ str_nat idx ++ "]"))
  end.

Fixpoint seq_loop (build_path : string) (seen_anchors : list string)
         (idx : nat) (data : list Node) : list Event :=
  match data with
  | [] => []
  | ele :: rest =>
      let '(seen', evs) := seq_body build_path seen_anchors idx ele in
      (evs ++ seq_loop build_path seen' (S idx) rest)%list
  end.

(** [tmp_path] of a mapping entry. *)
Definition key_path (build_path : string) (key : Scalar) : string :=
  build_path ++ key_segment pathsep key.

(** Whether an entry is in [pool]: [data.non_merged_items()], or
    [data.items()] when [include_aliases]. *)
Definition in_pool (own : bool) : bool := include_aliases || own.

(** One iteration of [for key, val in pool]. *)
Definition map_body (build_path : string) (seen_anchors : list string)
           (key : Scalar) (val : Node) : list string * list Event :=
  let tmp_path := key_path build_path key in
  let key_matched := search_keys && yields_on key in
  let key_evs :=
    if search_keys then test_and_yield RKey tmp_path key else [] in
  match val with
  | NScalar s =>
      if search_values && negb key_matched then
        match anchor s with
        | Some anchor_name =>
            if seen_in anchor_name seen_anchors then
              if negb include_aliases then (seen_anchors, key_evs)
              else (seen_anchors,
                    (key_evs ++ test_and_yield RValue tmp_path s)%list)
            else ((seen_anchors ++ [anchor_name])%list,
                  (key_evs ++ test_and_yield RValue tmp_path s)%list)
        | None =>
            (seen_anchors, (key_evs ++ test_and_yield RValue tmp_path s)%list)
        end
      else (seen_anchors, key_evs)
  | _ => (seen_anchors, (key_evs ++ recurse val tmp_path)%list)
  end.

(** The loop runs over the entries as ruamel's iterators do: an entry
    outside the pool is passed over. *)
Fixpoint map_loop (build_path : string) (seen_anchors : list string)
         (data : list (bool * Scalar * Node)) : list Event :=
  match data with
  | [] => []
  | (own, key, val) :: rest =>
      if in_pool own then
        let '(seen', evs) := map_body build_path seen_anchors key val in
        (evs ++ map_loop build_path seen' rest)%list
      else map_loop build_path seen_anchors rest
  end.

(** [build_path] as the sequence branch prepares it. *)
Definition seq_prefix (build_path : string) : string :=
  (if (build_path =? "") && is_FSLASH pathsep
   then String (strsep pathsep) ""
   else build_path) ++ "[".

(** [build_path] as the mapping branch prepares it. *)
Definition map_prefix (build_path : string) : string :=
  if negb (build_path =? "") then build_path ++ String (strsep pathsep) ""
  else if is_FSLASH pathsep then String (strsep pathsep) ""
  else build_path.

End Search.

Section SearchForPaths.

Context {Method : Type}.
Variable search_matches : Method -> string -> Scalar -> bool.
Variable terms : SearchTerms Method.
Variable pathsep : PathSeperators.
Variable search_values : bool.
Variable search_keys : bool.
Variable include_aliases : bool.

(** [search_for_paths], with the calls of [search_matches] recorded next to
    the yields.  [seen_anchors = []] at each call: both loops start from the
    empty list. *)
Fixpoint search_for_paths_trace (data : Node) (build_path : string)
  : list Event :=
  match data with
  | CommentedSeq _ items =>
      seq_loop search_matches terms pathsep search_values include_aliases
               search_for_paths_trace
               (seq_prefix pathsep build_path) [] 0 items
  | CommentedMap _ entries =>
      map_loop search_matches terms pathsep search_values search_keys
               include_aliases search_for_paths_trace
               (map_prefix pathsep build_path) [] entries
  | NScalar _ => []
  end.

(** The calls of [search_matches] of a run, in order. *)
Fixpoint tests (evs : list Event) : list Candidate :=
  match evs with
  | [] => []
  | Tested c :: rest => c :: tests rest
  | Yielded _ :: rest => tests rest
  end.

(** What the generator yields, in order. *)
Fixpoint yields (evs : list Event) : list YAMLPath :=
  match evs with
  | [] => []
  | Tested _ :: rest => yields rest
  | Yielded p :: rest => p :: yields rest
  end.

(** [search_for_paths(data, terms, pathsep, build_path, search_values=...,
    search_keys=..., include_aliases=...)] as its caller sees it. *)
Definition search_for_paths (data : Node) (build_path : string)
  : list YAMLPath :=
  yields (search_for_paths_trace data build_path).

End SearchForPaths.

(** [pool] of a mapping, as a list. *)
Definition pool (include_aliases : bool)
           (entries : list (bool * Scalar * Node))
  : list (bool * Scalar * Node) :=
  filter (fun e => in_pool include_aliases (fst (fst e))) entries.

(** ** Properties the matcher is checked against *)

(** The run with the predicate as given and the run with the predicate
    inverted test one and the same list of candidates, and share it out
    between them: the first yields the paths of the candidates that match,
    the second the paths of those that do not. *)
Definition inversion_partitions {Method : Type}
           (search_matches : Method -> string -> Scalar -> bool)
           (m : Method) (t : string) (pathsep : PathSeperators)
           (search_values search_keys include_aliases : bool)
           (data : Node) (build_path : string) : Prop :=
  let run inv :=
    search_for_paths_trace search_matches (mkTerms inv m t) pathsep
      search_values search_keys include_aliases data build_path in
  let matches c := search_matches m t (hay c) in
  exists visited : list Candidate,
    tests (run false) = visited /\
    tests (run true) = visited /\
    yields (run false) = map path (filter matches visited) /\
    yields (run true) = map path (filter (fun c => negb (matches c)) visited).

(** The yields of a run are the paths of the tested candidates on which the
    condition of the [if] before [yield] holds, in order. *)
Definition yields_answer_tests {Method : Type}
           (search_matches : Method -> string -> Scalar -> bool)
           (terms : SearchTerms Method) (evs : list Event) : Prop :=
  yields evs
  = map path
        (filter (fun c => yields_on search_matches terms (hay c))
                (tests evs)).

(** Two lists of names that answer [in] alike. *)
Definition same_names (xs ys : list string) : Prop :=
  forall a, seen_in a xs = seen_in a ys.

(** *** Alias de-duplication, stated on the direct children

    The scan of a container written without a running [seen_anchors]: what
    happens to a child is decided by the children of the same container
    that come before it, and a child container is scanned by a call of its
    own. *)

(** The anchor names borne by the direct children [children]. *)
Definition direct_anchors (children : list Node) : list string :=
  flat_map (fun n => match node_anchor n with
                     | Some a => [a]
                     | None => []
                     end) children.

Definition bears_one_of (names : list string) (a : option string) : bool :=
  match a with
  | Some anchor_name => seen_in anchor_name names
  | None => false
  end.

Section PerContainer.

Context {Method : Type}.
Variable search_matches : Method -> string -> Scalar -> bool.
Variable terms : SearchTerms Method.
Variable pathsep : PathSeperators.
Variables search_values search_keys include_aliases : bool.
Variable recurse : Node -> string -> list Event.

(** The path of a sequence element: by anchor name when it has one, by index
    otherwise. *)
Definition element_path (build_path : string) (idx : nat) (ele : Node)
  : string :=
  match node_anchor ele with
  | Some anchor_name =>
      build_path ++ "&" ++ anchor_segment pathsep anchor_name ++ "]"
  | None => build_path ++ str_nat idx ++ "]"
  end.

(** What is done with a sequence element that is not passed over. *)
Definition visit_element (tmp_path : string) (ele : Node) : list Event :=
  match ele with
  | NScalar s =>
      if search_values
      then test_and_yield search_matches terms RElement tmp_path s
      else []
  | _ => recurse ele tmp_path
  end.

(** The scan of the elements [items] of a sequence whose elements [before]
    have been processed. *)
Fixpoint seq_scan (build_path : string) (before items : list Node)
  : list Event :=
  match items with
  | [] => []
  | ele :: rest =>
      ((if negb include_aliases
           && bears_one_of (direct_anchors before) (node_anchor ele)
        then []
        else visit_element (element_path build_path (List.length before) ele) ele)
       ++ seq_scan build_path (before ++ [ele]) rest)%list
  end.

(** Whether the scalar value of an entry with key [key] gets as far as the
    de-duplication and the test. *)
Definition value_reached (key : Scalar) : bool :=
  search_values && negb (search_keys && yields_on search_matches terms key).

(** The anchor names borne by the scalar values of the entries [entries] of
    the pool that were reached. *)
Definition reached_value_anchors (entries : list (bool * Scalar * Node))
  : list string :=
  flat_map (fun e =>
              match e with
              | (own, key, NScalar s) =>
                  if in_pool include_aliases own && value_reached key
                  then match anchor s with
                       | Some a => [a]
                       | None => []
                       end
                  else []
              | _ => []
              end) entries.

(** The scan of the entries [entries] of a mapping whose entries [before]
    have been processed. *)
Fixpoint map_scan (build_path : string)
         (before entries : list (bool * Scalar * Node)) : list Event :=
  match entries with
  | [] => []
  | (own, key, val) :: rest =>
      ((if in_pool include_aliases own then
          let tmp_path := key_path pathsep build_path key in
          (if search_keys
           then test_and_yield search_matches terms RKey tmp_path key
           else [])
          ++ match val with
             | NScalar s =>
                 if value_reached key
                    && negb (negb include_aliases
                             && bears_one_of (reached_value_anchors before)
                                             (anchor s))
                 then test_and_yield search_matches terms RValue tmp_path s
                 else []
             | _ => recurse val tmp_path
             end
        else [])
       ++ map_scan build_path (before ++ [(own, key, val)]) rest)%list
  end.

End PerContainer.

(** ** Induction on documents *)

Section NodeInduction.

Variable P : Node -> Prop.
Hypothesis P_scalar : forall s, P (NScalar s).
Hypothesis P_seq : forall a items, Forall P items -> P (CommentedSeq a items).
Hypothesis P_map :
  forall a entries,
    Forall (fun e => P (snd e)) entries -> P (CommentedMap a entries).

Fixpoint Node_ind (n : Node) : P n :=
  match n with
  | NScalar s => P_scalar s
  | CommentedSeq a items =>
      P_seq a items
            ((fix all (l : list Node) : Forall P l :=
                match l with
                | [] => Forall_nil P
                | x :: r => Forall_cons x (Node_ind x) (all r)
                end) items)
  | CommentedMap a entries =>
      P_map a entries
            ((fix all (l : list (bool * Scalar * Node))
                : Forall (fun e => P (snd e)) l :=
                match l with
                | [] => Forall_nil _
                | x :: r => Forall_cons x (Node_ind (snd x)) (all r)
                end) entries)
  end.

End NodeInduction.

(** ** Sample documents and a sample comparison *)

(** Equality of the candidate's text with the term, whatever the method. *)
Definition text_equals (_ : unit) (t : string) (x : Scalar) : bool :=
  String.eqb t (text x).

Definition plain (t : string) : Scalar := mkScalar None t.
Definition anchored (a t : string) : Scalar := mkScalar (Some a) t.

(** [[10, 20, 30]] *)
Definition doc_numbers : Node :=
  CommentedSeq None
    [NScalar (plain "10"); NScalar (plain "20"); NScalar (plain "30")].

(** [{a: a}] *)
Definition doc_a_a : Node :=
  CommentedMap None [(true, plain "a", NScalar (plain "a"))].

(** [[[&A x], [*A]]]: the anchored scalar and its alias sit in two
    sequences. *)
Definition doc_alias_apart : Node :=
  CommentedSeq None
    [CommentedSeq None [NScalar (anchored "A" "x")];
     CommentedSeq None [NScalar (anchored "A" "x")]].

(** [[&A x, *A]]: the anchored scalar and its alias sit in one sequence. *)
Definition doc_alias_together : Node :=
  CommentedSeq None [NScalar (anchored "A" "x"); NScalar (anchored "A" "x")].

(** [{a: &X x, *X: y}]: the second key is an alias of the first value. *)
Definition doc_alias_key : Node :=
  CommentedMap None
    [(true, plain "a", NScalar (anchored "X" "x"));
     (true, anchored "X" "x", NScalar (plain "y"))].

(** [{k: [k]}] *)
Definition doc_key_over_seq : Node :=
  CommentedMap None
    [(true, plain "k", CommentedSeq None [NScalar (plain "k")])].

(** [{"a[b": v}] *)
Definition doc_bracket_key : Node :=
  CommentedMap None [(true, plain "a[b", NScalar (plain "v"))].

(** [[&x.y v]] *)
Definition doc_dotted_anchor : Node :=
  CommentedSeq None [NScalar (anchored "x.y" "v")].

(** [{a: b}] *)
Definition doc_a_b : Node :=
  CommentedMap None [(true, plain "a", NScalar (plain "b"))].

(** ** Further properties of the matcher *)

(** Whether the flags ask for candidates of a role to be searched. *)
Definition role_searched (search_values search_keys : bool) (r : Role)
  : bool :=
  match r with
  | RKey => search_keys
  | RValue | RElement => search_values
  end.

(** The path an event bears. *)
Definition event_path (e : Event) : YAMLPath :=
  match e with
  | Tested c => path c
  | Yielded p => p
  end.

(** [p] is [build_path] with something appended. *)
Definition extends (build_path p : string) : Prop :=
  exists rest, p = build_path ++ rest.

(** A document without anchors below its root and without entries that come
    from a YAML merge key. *)
Fixpoint plain_children (n : Node) : bool :=
  match n with
  | NScalar _ => true
  | CommentedSeq _ items =>
      forallb (fun ele => match node_anchor ele with
                          | None => plain_children ele
                          | Some _ => false
                          end) items
  | CommentedMap _ entries =>
      forallb (fun e => match e with
                        | (own, _, val) =>
                            own && match node_anchor val with
                                   | None => plain_children val
                                   | Some _ => false
                                   end
                        end) entries
  end.

(** The paths [[idx]], [[idx+1]], ... of the scalars of [items] on which
    [keep] holds. *)
Fixpoint index_paths (keep : Scalar -> bool) (build_path : string)
         (idx : nat) (items : list Scalar) : list YAMLPath :=
  match items with
  | [] => []
  | s :: rest =>
      ((if keep s then [(build_path ++ str_nat idx ++ "]")%string] else [])
       ++ index_paths keep build_path (S idx) rest)%list
  end.

(** [{a: &A x, b: *A, *A: y}] with a sequence [[&A x, *A]] under [c]. *)
Definition doc_aliases_everywhere : Node :=
  CommentedMap None
    [(true, plain "a", NScalar (anchored "A" "x"));
     (true, plain "b", NScalar (anchored "A" "x"));
     (false, plain "m", NScalar (plain "x"));
     (true, plain "c", doc_alias_together)].

(** [{a: [x, y], b: {c: x}}] *)
Definition doc_nested_plain : Node :=
  CommentedMap None
    [(true, plain "a", CommentedSeq None [NScalar (plain "x");
                                         NScalar (plain "y")]);
     (true, plain "b", CommentedMap None
                         [(true, plain "c", NScalar (plain "x"))])].

End YamlPaths.

(* ================================================================== *)
(** * yaml_merge.py *)
(* ================================================================== *)

Module YamlMerge.

(** ** Strings *)

(** A Python [str] is held as the bytes of its UTF-8 encoding.  The
    characters [str.strip()] removes are the white space of Unicode: U+0009
    to U+000D, U+001C to U+0020, U+0085, U+00A0, U+1680, U+2000 to U+200A,
    U+2028, U+2029, U+202F, U+205F and U+3000.  Those of one byte: *)
Definition is_space (c : ascii) : bool :=
  match nat_of_ascii c with
  | 9 | 10 | 11 | 12 | 13 | 28 | 29 | 30 | 31 | 32 => true
  | _ => false
  end.

Definition byte_is (n : nat) (c : ascii) : bool := (nat_of_ascii c =? n)%nat.

(** Those of two bytes: U+0085 (C2 85) and U+00A0 (C2 A0). *)
Definition is_space2 (c1 c2 : ascii) : bool :=
  byte_is 194 c1 && (byte_is 133 c2 || byte_is 160 c2).

(** Those of three bytes: U+1680 (E1 9A 80), U+2000 to U+200A (E2 80 80 to
    E2 80 8A), U+2028 (E2 80 A8), U+2029 (E2 80 A9), U+202F (E2 80 AF),
    U+205F (E2 81 9F) and U+3000 (E3 80 80). *)
Definition is_space3 (c1 c2 c3 : ascii) : bool :=
  (byte_is 225 c1 && byte_is 154 c2 && byte_is 128 c3)
  || (byte_is 226 c1 && byte_is 128 c2
      && (((128 <=? nat_of_ascii c3)%nat && (nat_of_ascii c3 <=? 138)%nat)
          || byte_is 168 c3 || byte_is 169 c3 || byte_is 175 c3))
  || (byte_is 226 c1 && byte_is 129 c2 && byte_is 159 c3)
  || (byte_is 227 c1 && byte_is 128 c2 && byte_is 128 c3).

(** [s.lstrip()]: the white space [s] begins with is dropped, character by
    character. *)
Fixpoint lstrip (s : string) : string :=
  match s with
  | EmptyString => EmptyString
  | String c1 rest1 =>
      if is_space c1 then lstrip rest1
      else
        match rest1 with
        | EmptyString => s
        | String c2 rest2 =>
            if is_space2 c1 c2 then lstrip rest2
            else
              match rest2 with
              | EmptyString => s
              | String c3 rest3 =>
                  if is_space3 c1 c2 c3 then lstrip rest3 else s
              end
        end
  end.

(** [s.rstrip()]: the string is cut where nothing but white space is
    left. *)
Fixpoint rstrip (s : string) : string :=
  match s with
  | EmptyString => EmptyString
  | String c rest =>
      if lstrip s =? "" then EmptyString else String c (rstrip rest)
  end.

(** [s.strip()] *)
Definition strip (s : string) : string := rstrip (lstrip s).

(** [x.strip() == '-'] *)
Definition is_pseudofile (x : string) : bool := strip x =? "-".

(** The truth value Python gives an optional command-line string: unset and
    empty are false. *)
Definition is_set (o : option string) : bool :=
  match o with
  | Some x => negb (x =? "")
  | None => false
  end.

Definition or_default (o : option string) : string :=
  match o with Some x => x | None => "" end.

(** ** What the command works with *)

(** The two exceptions [merge_with] is guarded against. *)
Inductive MergeError := MergeException | YAMLPathException.

(** Where a document handed to [merge_with] comes from: a file of the
    command line (or STDIN, [-]) handled by [process_rhs], or the
    [doc_number]-th remaining document of a multi-document first file
    handled by [process_multidoc]. *)
Inductive Origin :=
| RhsSource (rhs_file : string)
| PrimePart (doc_number : nat).

(** What is logged at error level and above. *)
Inductive Message :=
| TooFewFiles
| ManyPseudofiles
| ConfigNotReadable (config : string)
| OutputExists (output : string)
| NotAFile (rhs_file : string)
| MergeFailed (e : MergeError)
| NothingToMergeInto (prime_file : string).

(** The command-line arguments [validateargs] and [main] read. *)
Record Args := mkArgs {
  rhs_files : list string;
  config : option string;
  output : option string;
  nostdin : bool
}.

Section Command.

(** A loaded YAML document and the state of the [Merger] object. *)
Context {Doc Merger : Type}.

(** What [get_yaml_data] returns when it does not return [None]: one
    document, or the generator of the documents of a multi-document
    source, each of which may be [None]. *)
Inductive YamlData :=
| OneDoc (d : Doc)
| Stream (docs : list (option Doc)).

(** What a run does, in order: the messages logged at error level and above,
    the sources handed to the YAML loader with what came back, the merges
    attempted with what they raised, and the dump of the result to [target]
    (a file, or STDOUT when [None]). *)
Inductive Action :=
| LogError (m : Message)
| LogCritical (m : Message)
| GetYamlData (source : string) (allow_multidoc : bool)
              (data : option YamlData)
| MergeWith (origin : Origin) (rhs : YamlData) (raised : option MergeError)
| Dump (target : option string) (data : Merger).

(** What the command does not define itself: the terminal, the file system,
    [yamlpath.func.get_yaml_data] and the [Merger] class. *)
Record Env := mkEnv {
  stdin_isatty : bool;
  isfile : string -> bool;
  access_R_OK : string -> bool;
  exists_ : string -> bool;
  get_yaml_data : string -> bool -> option YamlData;
  new_merger : Doc -> Merger;
  merge_with : Merger -> YamlData -> Merger * option MergeError;
  prepare_for_dump : Merger -> Merger
}.

(** ** Running with a log and [sys.exit] *)

Inductive Result (A : Type) :=
| Return (a : A)
| SysExit (code : nat).
Arguments Return {A}.
Arguments SysExit {A}.

(** A piece of the command: the actions it performs, and either its value or
    the status it leaves the process with. *)
Definition Run (A : Type) : Type := list Action * Result A.

Definition ret {A} (a : A) : Run A := ([], Return a).

Definition bind {A B} (m : Run A) (f : A -> Run B) : Run B :=
  match m with
  | (log, Return a) => let '(log', r) := f a in ((log ++ log')%list, r)
  | (log, SysExit code) => (log, SysExit code)
  end.

Definition act (a : Action) : Run unit := ([a], Return tt).

Definition sys_exit {A} (code : nat) : Run A := ([], SysExit code).

End Command.

Arguments YamlData : clear implicits.
Arguments Action : clear implicits.
Arguments Env : clear implicits.
Arguments Run : clear implicits.
Arguments Return {A}.
Arguments SysExit {A}.

Declare Scope run_scope.
Delimit Scope run_scope with run.
Notation "x <- m ;; k" := (bind m (fun x => k))
  (at level 61, m at next level, right associativity) : run_scope.
Notation "m ;; k" := (bind m (fun _ => k))
  (at level 61, right associativity) : run_scope.

Section Main.

Context {Doc Merger : Type}.
Variable env : Env Doc Merger.
Variable args : Args.

Local Open Scope run_scope.

(** Modelled from the spec: [ConsolePrinter.critical(message, exit_code)];
    [ConsolePrinter] is not among the sources at hand.  By the spec an error
    on the first source is logged and aborts the run, and the call hands
    over the status to leave with. *)
Definition log_critical {A} (m : Message) (exit_code : nat)
  : Run Doc Merger A :=
  act (LogCritical m) ;; sys_exit exit_code.

(** One check of [validateargs]: on failure the error is logged and
    [has_errors] is set. *)
Definition check (failed : bool) (m : Message) : Run Doc Merger bool :=
  if failed then act (LogError m) ;; ret true else ret false.

(** The number of [-] among the files. *)
Definition pseudofile_count : nat :=
  List.length (filter is_pseudofile (rhs_files args)).

(** The four conditions [validateargs] holds against the arguments. *)
Definition too_few_files : bool :=
  let input_file_count := List.length (rhs_files args) in
  (input_file_count =? 0)%nat
  || ((input_file_count =? 1)%nat
      && (stdin_isatty env
          || is_pseudofile (hd "" (rhs_files args))
          || nostdin args)).

Definition many_pseudofiles : bool := (1 <? pseudofile_count)%nat.

Definition config_unreadable : bool :=
  is_set (config args)
  && negb (isfile env (or_default (config args))
           && access_R_OK env (or_default (config args))).

Definition output_exists : bool :=
  is_set (output args) && exists_ env (or_default (output args)).

(** [validateargs(args, log)].  Muting the non-error output when there is
    no [--output] leaves no trace here. *)
Definition validateargs : Run Doc Merger unit :=
  e1 <- check too_few_files TooFewFiles ;;
  e2 <- check many_pseudofiles ManyPseudofiles ;;
  e3 <- check config_unreadable
              (ConfigNotReadable (or_default (config args))) ;;
  e4 <- check output_exists (OutputExists (or_default (output args))) ;;
  if e1 || e2 || e3 || e4 then sys_exit 1 else ret tt.

(** [process_rhs(merger, rhs_yaml, rhs_file)]: the merger as the call leaves
    it, and the status returned. *)
Definition process_rhs (merger : Merger) (rhs_file : string)
  : Run Doc Merger (Merger * nat) :=
  if negb (rhs_file =? "-") && negb (isfile env rhs_file) then
    act (LogError (NotAFile rhs_file)) ;; ret (merger, 2)
  else
    let rhs_data := get_yaml_data env rhs_file true in
    act (GetYamlData rhs_file true rhs_data) ;;
    match rhs_data with
    | None => ret (merger, 3)
    | Some data =>
        let '(merger', raised) := merge_with env merger data in
        act (MergeWith (RhsSource rhs_file) data raised) ;;
        match raised with
        | None => ret (merger', 0)
        | Some MergeException =>
            act (LogError (MergeFailed MergeException)) ;; ret (merger', 4)
        | Some YAMLPathException =>
            act (LogError (MergeFailed YAMLPathException)) ;;
            ret (merger', 5)
        end
    end.

(** The loop of [process_multidoc], from [doc_number] documents seen and
    the [exit_state] reached. *)
Fixpoint multidoc_loop (merger : Merger) (docs : list (option Doc))
         (doc_number exit_state : nat) : Run Doc Merger (Merger * nat) :=
  match docs with
  | [] => ret (merger, exit_state)
  | doc :: rest =>
      let doc_number := S doc_number in
      match doc with
      | None => multidoc_loop merger rest doc_number exit_state
      | Some d =>
          let '(merger', raised) := merge_with env merger (OneDoc d) in
          act (MergeWith (PrimePart doc_number) (OneDoc d) raised) ;;
          match raised with
          | None => multidoc_loop merger' rest doc_number exit_state
          | Some MergeException =>
              act (LogError (MergeFailed MergeException)) ;;
              multidoc_loop merger' rest doc_number 6
          | Some YAMLPathException =>
              act (LogError (MergeFailed YAMLPathException)) ;;
              multidoc_loop merger' rest doc_number 7
          end
      end
  end.

(** [process_multidoc(merger, docs)] *)
Definition process_multidoc (merger : Merger) (docs : list (option Doc))
  : Run Doc Merger (Merger * nat) :=
  multidoc_loop merger docs 0 0.

(** [for rhs_file in fileiterator], with its [break]: the merger,
    [consumed_stdin] and [exit_state] after the loop. *)
Fixpoint rhs_loop (merger : Merger) (fileiterator : list string)
         (consumed_stdin : bool) (exit_state : nat)
  : Run Doc Merger (Merger * bool * nat) :=
  match fileiterator with
  | [] => ret (merger, consumed_stdin, exit_state)
  | rhs_file :: rest =>
      r <- process_rhs merger rhs_file ;;
      let '(merger', proc_state) := r in
      let consumed_stdin := consumed_stdin || is_pseudofile rhs_file in
      if negb (proc_state =? 0)%nat
      then ret (merger', consumed_stdin, proc_state)
      else rhs_loop merger' rest consumed_stdin exit_state
  end.

(** [next(prime_data, None)] *)
Definition next_doc (docs : list (option Doc)) : option Doc :=
  match docs with
  | d :: _ => d
  | [] => None
  end.

(** The end of [main]: the check for a waiting STDIN document, the dump of
    the result and the exit. *)
Definition main_finish (merger : Merger) (consumed_stdin : bool)
           (exit_state : nat) : Run Doc Merger unit :=
  r <- (if (exit_state =? 0)%nat && negb consumed_stdin
           && negb (nostdin args) && negb (stdin_isatty env)
        then process_rhs merger "-"
        else ret (merger, exit_state)) ;;
  let '(merger, exit_state) := r in
  (if (exit_state =? 0)%nat
   then act (Dump (if is_set (output args) then output args else None)
                  (prepare_for_dump env merger))
   else ret tt) ;;
  sys_exit exit_state.

(** [main] from [exit_state = 0] on: the further documents of a
    multi-document first file, then the other files, then the end. *)
Definition main_merge (merger : Merger) (lhs_is_multidoc : bool)
           (prime_data : list (option Doc)) (fileiterator : list string)
           (consumed_stdin : bool) : Run Doc Merger unit :=
  r <- (if lhs_is_multidoc
        then process_multidoc merger prime_data
        else ret (merger, 0)) ;;
  let '(merger, exit_state) := r in
  (if lhs_is_multidoc && negb (exit_state =? 0)%nat
   then sys_exit exit_state
   else ret tt) ;;
  r <- rhs_loop merger fileiterator consumed_stdin exit_state ;;
  let '(merger, consumed_stdin, exit_state) := r in
  main_finish merger consumed_stdin exit_state.

(** [main()], after [processcli]. *)
Definition main : Run Doc Merger unit :=
  validateargs ;;
  match rhs_files args with
  | [] =>
      (* [next(fileiterator)] on no file; [validateargs] has left before. *)
      sys_exit 1
  | prime_file :: fileiterator =>
      let consumed_stdin := is_pseudofile prime_file in
      let prime_data := get_yaml_data env prime_file false in
      act (GetYamlData prime_file false prime_data) ;;
      let '(lhs_is_multidoc, lhs_data, prime_rest) :=
        match prime_data with
        | Some (Stream docs) => (true, next_doc docs, tl docs)
        | Some (OneDoc d) => (false, Some d, [])
        | None => (false, None, [])
        end in
      match lhs_data with
      | None => log_critical (NothingToMergeInto prime_file) 1
      | Some d =>
          main_merge (new_merger env d) lhs_is_multidoc prime_rest
                     fileiterator consumed_stdin
      end
  end.

(** The actions of the whole run and the status the process ends with. *)
Definition actions : list (Action Doc Merger) := fst main.

Definition exit_status : nat :=
  match snd main with
  | SysExit code => code
  | Return _ => 0
  end.

(** ** Properties the command is checked against *)

(** Whether STDIN is read although no file names it: no [-] among the files,
    no [--nostdin], no terminal. *)
Definition implied_stdin : nat :=
  if negb (stdin_isatty env) && negb (nostdin args)
     && (pseudofile_count =? 0)%nat
  then 1 else 0.

(** The sources overall, and those of them that are STDIN. *)
Definition source_count : nat :=
  List.length (rhs_files args) + implied_stdin.

Definition stdin_count : nat := pseudofile_count + implied_stdin.

End Main.

Section Statuses.

Context {Doc Merger : Type}.

(** The actions of [validateargs]: error messages. *)
Definition is_log_error (a : Action Doc Merger) : bool :=
  match a with
  | LogError _ => true
  | _ => false
  end.

Definition is_dump (a : Action Doc Merger) : bool :=
  match a with
  | Dump _ _ => true
  | _ => false
  end.

(** The attempts to merge, in order, with what each raised. *)
Fixpoint merges (log : list (Action Doc Merger))
  : list (Origin * option MergeError) :=
  match log with
  | [] => []
  | MergeWith origin _ raised :: rest => (origin, raised) :: merges rest
  | _ :: rest => merges rest
  end.

(** A log without a dump when the status is not 0, with one dump, at its
    end, when the status is 0. *)
Definition dumps_on_success (log : list (Action Doc Merger)) (st : nat)
  : Prop :=
  (st <> 0 -> forallb (fun a => negb (is_dump a)) log = true)
  /\ (st = 0 ->
      exists pre target data,
        log = (pre ++ [Dump target data])%list
        /\ forallb (fun a => negb (is_dump a)) pre = true).

(** The failure an action records, as the status the command answers it
    with: a failed validation or a first source with nothing in it, 1; a
    right-hand file that is not a file, 2; a right-hand source that does not
    load, 3; an exception of [merge_with] on a right-hand source, 4 or 5,
    and on a further document of the first source, 6 or 7. *)
Definition failure_status (a : Action Doc Merger) : option nat :=
  match a with
  | LogError (NotAFile _) => Some 2
  | LogError (MergeFailed _) => None
  | LogError _ => Some 1
  | LogCritical _ => Some 1
  | GetYamlData _ true None => Some 3
  | MergeWith (RhsSource _) _ (Some MergeException) => Some 4
  | MergeWith (RhsSource _) _ (Some YAMLPathException) => Some 5
  | MergeWith (PrimePart _) _ (Some MergeException) => Some 6
  | MergeWith (PrimePart _) _ (Some YAMLPathException) => Some 7
  | _ => None
  end.

(** The same, as the spec has it: whether a merge failure counts as 4/5 or
    as 6/7 goes by the source being single-document or multi-document, and
    any source that fails to parse gives 3. *)
Definition spec_failure_status (a : Action Doc Merger) : option nat :=
  match a with
  | LogError (NotAFile _) => Some 2
  | LogError (MergeFailed _) => None
  | LogError _ => Some 1
  | GetYamlData _ _ None => Some 3
  | MergeWith (RhsSource _) (OneDoc _) (Some MergeException) => Some 4
  | MergeWith (RhsSource _) (OneDoc _) (Some YAMLPathException) => Some 5
  | MergeWith _ _ (Some MergeException) => Some 6
  | MergeWith _ _ (Some YAMLPathException) => Some 7
  | _ => None
  end.

(** The status of the last failure of a log, [so_far] when it has none. *)
Definition last_failure (status : Action Doc Merger -> option nat)
           (so_far : nat) (log : list (Action Doc Merger)) : nat :=
  fold_left (fun acc a => match status a with
                          | Some code => code
                          | None => acc
                          end) log so_far.

(** The exit status follows the spec's table. *)
Definition follows_spec_statuses (env : Env Doc Merger) (args : Args)
  : Prop :=
  exit_status env args = last_failure spec_failure_status 0 (actions env args).

(** Once an attempt to merge has failed, no other is made. *)
Fixpoint stops_at_first_failure (ms : list (Origin * option MergeError))
  : bool :=
  match ms with
  | [] => true
  | (_, None) :: rest => stops_at_first_failure rest
  | (_, Some _) :: rest => match rest with [] => true | _ => false end
  end.

End Statuses.

(** ** Sample runs *)

(** Documents are numbers; the merger keeps the documents merged into it, the
    first document first; merging a document numbered 13 raises a
    [MergeException], one numbered 17 a [YAMLPathException]. *)
Definition sample_raises (d : nat) : option MergeError :=
  if (d =? 13)%nat then Some MergeException
  else if (d =? 17)%nat then Some YAMLPathException
  else None.

Fixpoint sample_merge_docs (merger : list nat) (docs : list (option nat))
  : list nat * option MergeError :=
  match docs with
  | [] => (merger, None)
  | None :: rest => sample_merge_docs merger rest
  | Some d :: rest =>
      match sample_raises d with
      | Some e => (merger, Some e)
      | None => sample_merge_docs (merger ++ [d])%list rest
      end
  end.

Definition sample_merge_with (merger : list nat) (rhs : YamlData nat)
  : list nat * option MergeError :=
  match rhs with
  | OneDoc d => sample_merge_docs merger [Some d]
  | Stream docs => sample_merge_docs merger docs
  end.

(** A terminal session over the files [files]; nothing else exists. *)
Definition sample_env (files : list (string * YamlData nat))
  : Env nat (list nat) :=
  let lookup (name : string) : option (YamlData nat) :=
    match find (fun f => fst f =? name) files with
    | Some f => Some (snd f)
    | None => None
    end in
  {| stdin_isatty := true;
     isfile := fun name => match lookup name with
                           | Some _ => true
                           | None => false
                           end;
     access_R_OK := fun _ => true;
     exists_ := fun name => match lookup name with
                            | Some _ => true
                            | None => false
                            end;
     get_yaml_data := fun name _ => lookup name;
     new_merger := fun d => [d];
     merge_with := sample_merge_with;
     prepare_for_dump := fun merger => merger |}.

Definition sample_args (files : list string) (out : option string) : Args :=
  {| rhs_files := files; config := None; output := out; nostdin := false |}.

(** A first file of three documents, the second of which cannot be merged. *)
Definition env_broken_stream : Env nat (list nat) :=
  sample_env [("a.yaml", Stream [Some 1; Some 13; Some 3]);
              ("b.yaml", OneDoc 4)].

(** A right-hand file of two documents that cannot be merged. *)
Definition env_rhs_stream : Env nat (list nat) :=
  sample_env [("a.yaml", OneDoc 1);
              ("b.yaml", Stream [Some 2; Some 13])].

(** Two files that merge. *)
Definition env_two_files : Env nat (list nat) :=
  sample_env [("a.yaml", OneDoc 1); ("b.yaml", OneDoc 2)].

End YamlMerge.

(* ================================================================== *)
(** * yaml_paths.py: the command *)
(* ================================================================== *)

Module YamlPathsCommand.

Import YamlPaths.

(** The exceptions of the YAML loader [main] is guarded against. *)
Inductive YamlError := ParserError | ComposerError | ScannerError.

(** What [open(yaml_file)] and [yaml.load(fhnd)] come to: the document, one
    of the exceptions [main] catches, or any other exception (a file that
    cannot be opened, say), which nothing catches. *)
Inductive Load :=
| Loaded (yaml_data : Node)
| Raised (e : YamlError)
| Uncaught.

(** The command-line arguments [validateargs] and [main] read.  The options
    on key names and on aliases are parsed by [processcli] and read by
    neither. *)
Record Args := mkArgs {
  search : list string;
  pathsep : PathSeperators;
  yaml_files : list string;
  privatekey : option string;
  publickey : option string
}.

Inductive Message :=
| PrivateKeyUnreadable (privatekey : string)
| PublicKeyUnreadable (publickey : string)
| BothKeysNeeded
| YamlProblem (e : YamlError).

(** What the command writes: errors through the log, results through
    [print]. *)
Inductive Output :=
| LogError (m : Message)
| Print (line : string).

Section Command.

Context {Method : Type}.

(** What the command does not define itself: the file system; the loader;
    the parsing of a search expression into its terms
    ([YAMLPath("[*{}]".format(expression)).escaped[0][1]]), [None] when
    this raises or gives no search terms, so that an exception leaves the
    search before its first result; [search_matches], taken to raise
    nothing; and [str()] of a [YAMLPath], the text [print] writes for a
    result, which the [YAMLPath] class renders anew from the path it was
    built with, [None] when that path does not parse and
    [YAMLPathException] is raised. *)
Record Env := mkEnv {
  isfile : string -> bool;
  access_R_OK : string -> bool;
  load : string -> Load;
  search_terms : string -> option (SearchTerms Method);
  search_matches : Method -> string -> Scalar -> bool;
  str_path : YAMLPath -> option string
}.

Variable env : Env.
Variable args : Args.

(** [isfile(x) and access(x, R_OK)] *)
Definition readable_file (x : string) : bool :=
  isfile env x && access_R_OK env x.

(** The errors [validateargs(args, log)] logs, in order; with any of them
    [has_errors] is set and the command leaves with 1. *)
Definition validation_errors : list Message :=
  ((if YamlMerge.is_set (privatekey args)
       && negb (readable_file (YamlMerge.or_default (privatekey args)))
    then [PrivateKeyUnreadable (YamlMerge.or_default (privatekey args))]
    else [])
   ++ (if YamlMerge.is_set (publickey args)
          && negb (readable_file (YamlMerge.or_default (publickey args)))
       then [PublicKeyUnreadable (YamlMerge.or_default (publickey args))]
       else [])
   ++ (if (YamlMerge.is_set (publickey args)
           && negb (YamlMerge.is_set (privatekey args)))
          || (YamlMerge.is_set (privatekey args)
              && negb (YamlMerge.is_set (publickey args)))
       then [BothKeysNeeded]
       else []))%list.

(** The line printed for a result: one of the four formats, around
    [str(result)]; [None] when [str(result)] raises. *)
Definition format_line (yaml_file expression : string) (result : YAMLPath)
  : option string :=
  let in_file_count := List.length (yaml_files args) in
  let in_expressions := List.length (search args) in
  match str_path env result with
  | None => None
  | Some rendered =>
      Some (if (1 <? in_file_count)%nat then
              if (1 <? in_expressions)%nat
              then yaml_file ++ "[" ++ expression ++ "]: " ++ rendered
              else yaml_file ++ ": " ++ rendered
            else
              if (1 <? in_expressions)%nat
              then "[" ++ expression ++ "]: " ++ rendered
              else rendered)
  end.

(** [for result in search_for_paths(...)]: the lines printed, and whether
    the loop came to its end; it does not when printing a result raises. *)
Fixpoint print_results (yaml_file expression : string)
         (results : list YAMLPath) : list string * bool :=
  match results with
  | [] => ([], true)
  | result :: rest =>
      match format_line yaml_file expression result with
      | None => ([], false)
      | Some line =>
          let '(lines, done) := print_results yaml_file expression rest in
          (line :: lines, done)
      end
  end.

(** The results of one expression on one document.  The search runs with
    the defaults of [search_for_paths]: an empty [build_path], values, no
    keys, no aliases. *)
Definition results_of (terms : SearchTerms Method) (yaml_data : Node)
  : list YAMLPath :=
  search_for_paths (search_matches env) terms (pathsep args)
    true false false yaml_data "".

(** [for expression in args.search], from [expressions] on: the lines
    printed for one file, and whether the loop came to its end. *)
Fixpoint search_file (yaml_file : string) (yaml_data : Node)
         (expressions : list string) : list string * bool :=
  match expressions with
  | [] => ([], true)
  | expression :: rest =>
      match search_terms env expression with
      | None => ([], false)
      | Some terms =>
          let '(lines, done) :=
            print_results yaml_file expression
                          (results_of terms yaml_data) in
          if done then
            let '(more, done') := search_file yaml_file yaml_data rest in
            ((lines ++ more)%list, done')
          else (lines, false)
      end
  end.

(** [for yaml_file in args.yaml_files], from [exit_state]: what is written
    and the status the command leaves with.  An exception that nothing
    catches ends the run there, with the status 1 of the interpreter. *)
Fixpoint files_loop (files : list string) (exit_state : nat)
  : list Output * nat :=
  match files with
  | [] => ([], exit_state)
  | yaml_file :: rest =>
      match load env yaml_file with
      | Loaded yaml_data =>
          let '(lines, done) :=
            search_file yaml_file yaml_data (search args) in
          if done then
            let '(out, st) := files_loop rest exit_state in
            ((map Print lines ++ out)%list, st)
          else (map Print lines, 1)
      | Raised e =>
          let '(out, st) := files_loop rest 3 in
          (LogError (YamlProblem e) :: out, st)
      | Uncaught => ([], 1)
      end
  end.

(** [main()], after [processcli]. *)
Definition main : list Output * nat :=
  match validation_errors with
  | [] => files_loop (yaml_files args) 0
  | errors => (map LogError errors, 1)
  end.

(** The lines printed. *)
Fixpoint printed (out : list Output) : list string :=
  match out with
  | [] => []
  | Print line :: rest => line :: printed rest
  | LogError _ :: rest => printed rest
  end.

(** ** What the command is checked against *)

(** The lines of the results of every expression on a document, expression
    after expression, each result as [str()] renders it. *)
Definition lines_of_file (yaml_file : string) (yaml_data : Node)
  : list string :=
  flat_map
    (fun expression =>
       match search_terms env expression with
       | Some terms =>
           flat_map (fun result =>
                       match format_line yaml_file expression result with
                       | Some line => [line]
                       | None => []
                       end)
                    (results_of terms yaml_data)
       | None => []
       end)
    (search args).

(** What the files that load give, file after file. *)
Definition lines_of_loaded_files (files : list string) : list string :=
  flat_map (fun yaml_file =>
              match load env yaml_file with
              | Loaded yaml_data => lines_of_file yaml_file yaml_data
              | _ => []
              end) files.

Definition fails_to_parse (yaml_file : string) : bool :=
  match load env yaml_file with
  | Raised _ => true
  | _ => false
  end.

(** Whether the search of a document raises nothing: every expression
    gives search terms, and every result has a text. *)
Definition search_raises_nothing (yaml_data : Node) : bool :=
  forallb
    (fun expression =>
       match search_terms env expression with
       | Some terms =>
           forallb (fun result =>
                      match str_path env result with
                      | Some _ => true
                      | None => false
                      end)
                   (results_of terms yaml_data)
       | None => false
       end)
    (search args).

(** Whether something is raised that [main] does not catch, when the file
    is loaded or when it is searched. *)
Definition is_uncaught (yaml_file : string) : bool :=
  match load env yaml_file with
  | Uncaught => true
  | Loaded yaml_data => negb (search_raises_nothing yaml_data)
  | Raised _ => false
  end.

End Command.

Arguments Env : clear implicits.

(** A sample: [good.yaml] holds [[10, 20, 30]], [bad.yaml] does not parse,
    [odd.yaml] holds [{a[b: 20}], the path to whose value has no text;
    every expression is taken as the text to find, and a path that
    parses is rendered as it was built. *)
Definition sample_env : Env unit :=
  {| isfile := fun _ => false;
     access_R_OK := fun _ => false;
     load := fun name =>
               if name =? "good.yaml" then Loaded doc_numbers
               else if name =? "bad.yaml" then Raised ScannerError
               else if name =? "odd.yaml"
                    then Loaded (CommentedMap None
                                   [(true, plain "a[b",
                                     NScalar (plain "20"))])
               else Uncaught;
     search_terms := fun expression => Some (mkTerms false tt expression);
     search_matches := text_equals;
     str_path := fun p => if p =? "a[b" then None else Some p |}.

Definition sample_args (files : list string) (key : option string) : Args :=
  {| search := ["20"]; pathsep := DOT; yaml_files := files;
     privatekey := key; publickey := None |}.

End YamlPathsCommand.

(* ================================================================== *)
(** * yaml_merge.py: further properties *)
(* ================================================================== *)

Module MergeProperties.

Import YamlMerge.

Section Logs.

Context {Doc Merger : Type}.

(** The sources handed to the loader, in order. *)
Fixpoint loads (log : list (Action Doc Merger)) : list string :=
  match log with
  | [] => []
  | GetYamlData source _ _ :: rest => source :: loads rest
  | _ :: rest => loads rest
  end.

(** What was handed to [merge_with], in order. *)
Fixpoint merged_data (log : list (Action Doc Merger))
  : list (YamlData Doc) :=
  match log with
  | [] => []
  | MergeWith _ rhs _ :: rest => rhs :: merged_data rest
  | _ :: rest => merged_data rest
  end.

(** Whether an attempt to merge raised nothing. *)
Definition went_well (m : Origin * option MergeError) : bool :=
  match snd m with
  | None => true
  | Some _ => false
  end.

(** The numbers [process_multidoc] gives the documents of [docs] that are
    not [None], counting from [doc_number]. *)
Fixpoint present_parts (docs : list (option Doc)) (doc_number : nat)
  : list Origin :=
  match docs with
  | [] => []
  | Some _ :: rest =>
      PrimePart (S doc_number) :: present_parts rest (S doc_number)
  | None :: rest => present_parts rest (S doc_number)
  end.

Variable env : Env Doc Merger.
Variable args : Args.

(** The merger after [merge_with] was called on each of [datas] in turn,
    whatever it raised. *)
Definition merge_all (merger : Merger) (datas : list (YamlData Doc))
  : Merger :=
  fold_left (fun m rhs => fst (merge_with env m rhs)) datas merger.

(** The document the merger is created with: the first file's document, or
    the first of its documents. *)
Definition first_document : option Doc :=
  match rhs_files args with
  | [] => None
  | prime_file :: _ =>
      match get_yaml_data env prime_file false with
      | Some (OneDoc d) => Some d
      | Some (Stream docs) => next_doc docs
      | None => None
      end
  end.

(** Whether the first file came as a generator of documents. *)
Definition prime_is_multidoc : bool :=
  match rhs_files args with
  | [] => false
  | prime_file :: _ =>
      match get_yaml_data env prime_file false with
      | Some (Stream _) => true
      | _ => false
      end
  end.

(** The further documents of a multi-document first file. *)
Definition prime_rest : list (option Doc) :=
  match rhs_files args with
  | [] => []
  | prime_file :: _ =>
      match get_yaml_data env prime_file false with
      | Some (Stream docs) => tl docs
      | _ => []
      end
  end.

(** Whether [main] goes for a waiting STDIN document. *)
Definition reads_waiting_stdin (consumed_stdin : bool) (exit_state : nat)
  : bool :=
  (exit_state =? 0)%nat && negb consumed_stdin
  && negb (nostdin args) && negb (stdin_isatty env).

(** Where the result is dumped: the file of [--output], or STDOUT. *)
Definition dump_target : option string :=
  if is_set (output args) then output args else None.

(** Whether [validateargs] finds nothing to log. *)
Definition validation_passes : bool :=
  negb (too_few_files env args || many_pseudofiles args
        || config_unreadable env args || output_exists env args).

End Logs.

(** Three files; the second does not exist. *)
Definition env_three_files : Env nat (list nat) :=
  sample_env [("a.yaml", OneDoc 1); ("c.yaml", OneDoc 3)].

(** No terminal: STDIN holds a document. *)
Definition env_piped : Env nat (list nat) :=
  {| stdin_isatty := false;
     isfile := isfile env_two_files;
     access_R_OK := access_R_OK env_two_files;
     exists_ := exists_ env_two_files;
     get_yaml_data := fun name multi =>
                        if name =? "-" then Some (OneDoc 9)
                        else get_yaml_data env_two_files name multi;
     new_merger := new_merger env_two_files;
     merge_with := merge_with env_two_files;
     prepare_for_dump := prepare_for_dump env_two_files |}.

End MergeProperties.

(* ================================================================== *)
(** * Facts about the matcher *)
(* ================================================================== *)

Import YamlPaths.

Create HintDb matcher.

Lemma tests_app (xs ys : list Event) :
  tests (xs ++ ys) = (tests xs ++ tests ys)%list.
Proof.
  induction xs as [|[c|p] xs IH]; simpl; congruence.
Qed.

Lemma yields_app (xs ys : list Event) :
  yields (xs ++ ys) = (yields xs ++ yields ys)%list.
Proof.
  induction xs as [|[c|p] xs IH]; simpl; congruence.
Qed.

(** Passing over the entries outside the pool is running over the pool. *)
Lemma map_loop_over_pool {Method : Type}
      (search_matches : Method -> string -> Scalar -> bool)
      (terms : SearchTerms Method) (pathsep : PathSeperators)
      (search_values search_keys include_aliases : bool)
      (recurse : Node -> string -> list Event) (bp : string) entries :
  forall seen,
    map_loop search_matches terms pathsep search_values search_keys
             include_aliases recurse bp seen entries
    = map_loop search_matches terms pathsep search_values search_keys
               include_aliases recurse bp seen
               (pool include_aliases entries).
Proof.
  induction entries as [|[[own key] val] rest IH]; intros seen; simpl;
    trivial.
  destruct (in_pool include_aliases own) eqn:E; simpl; rewrite ?E; auto.
  destruct (map_body _ _ _ _ _ _ _ _ _ _ _) as [seen' evs].
  now rewrite IH.
Qed.

(** ** Every yield answers a test *)

Section Pointwise.

Context {Method : Type}.
Variable search_matches : Method -> string -> Scalar -> bool.
Variable terms : SearchTerms Method.
Variable pathsep : PathSeperators.
Variables search_values search_keys include_aliases : bool.

Local Notation "'coherent'" := (yields_answer_tests search_matches terms).

Lemma coherent_nil : coherent [].
Proof. reflexivity. Qed.

Lemma coherent_app xs ys : coherent xs -> coherent ys -> coherent (xs ++ ys).
Proof.
  unfold yields_answer_tests; intros Hx Hy.
  now rewrite yields_app, tests_app, filter_app, map_app, Hx, Hy.
Qed.

Lemma coherent_test_and_yield r p x :
  coherent (test_and_yield search_matches terms r p x).
Proof.
  unfold yields_answer_tests, test_and_yield; simpl.
  destruct (yields_on search_matches terms x); reflexivity.
Qed.

#[local] Hint Resolve coherent_nil coherent_app coherent_test_and_yield
  : matcher.

Variable recurse : Node -> string -> list Event.

Lemma seq_body_coherent bp seen idx ele :
  (forall p, coherent (recurse ele p)) ->
  coherent (snd (seq_body search_matches terms pathsep search_values
                          include_aliases recurse bp seen idx ele)).
Proof.
  intros Hrec; unfold seq_body.
  destruct (node_anchor ele) as [a|];
    [destruct (seen_in a seen); [destruct (negb include_aliases)|]|];
    simpl; auto with matcher;
    destruct ele; try destruct search_values; auto with matcher.
Qed.

Lemma seq_loop_coherent bp items :
  Forall (fun e => forall p, coherent (recurse e p)) items ->
  forall seen idx,
    coherent (seq_loop search_matches terms pathsep search_values
                       include_aliases recurse bp seen idx items).
Proof.
  induction 1 as [|ele rest Hele _ IH]; intros seen idx; simpl.
  - apply coherent_nil.
  - pose proof (seq_body_coherent bp seen idx ele Hele) as Hb.
    destruct (seq_body _ _ _ _ _ _ _ _ _ _) as [seen' evs]; simpl in Hb.
    auto with matcher.
Qed.

Lemma map_body_coherent bp seen key val :
  (forall p, coherent (recurse val p)) ->
  coherent (snd (map_body search_matches terms pathsep search_values
                          search_keys include_aliases recurse bp seen
                          key val)).
Proof.
  intros Hrec; unfold map_body.
  assert (Hk : coherent
                 (if search_keys
                  then test_and_yield search_matches terms RKey
                                      (key_path pathsep bp key) key
                  else [])) by (destruct search_keys; auto with matcher).
  destruct val as [s| |]; simpl; auto with matcher.
  destruct (search_values && negb _); simpl; auto.
  destruct (anchor s) as [a|]; simpl; auto with matcher.
  destruct (seen_in a seen); [destruct (negb include_aliases)|];
    simpl; auto with matcher.
Qed.

Lemma map_loop_coherent bp entries :
  Forall (fun e => forall p, coherent (recurse (snd e) p)) entries ->
  forall seen,
    coherent (map_loop search_matches terms pathsep search_values
                       search_keys include_aliases recurse bp seen entries).
Proof.
  induction 1 as [|[[own key] val] rest Hval _ IH]; intros seen; simpl.
  - apply coherent_nil.
  - destruct (in_pool include_aliases own); auto.
    pose proof (map_body_coherent bp seen key val Hval) as Hb.
    destruct (map_body _ _ _ _ _ _ _ _ _ _ _) as [seen' evs]; simpl in Hb.
    auto with matcher.
Qed.

End Pointwise.

Lemma trace_coherent {Method : Type}
      (search_matches : Method -> string -> Scalar -> bool)
      (terms : SearchTerms Method) (pathsep : PathSeperators)
      (search_values search_keys include_aliases : bool) (data : Node) :
  forall build_path,
    yields_answer_tests search_matches terms
      (search_for_paths_trace search_matches terms pathsep
         search_values search_keys include_aliases data build_path).
Proof.
  induction data as [s|a items IH|a entries IH] using Node_ind;
    intros build_path; simpl.
  - reflexivity.
  - now apply seq_loop_coherent.
  - now apply map_loop_coherent.
Qed.

(** ** Which candidates are tested does not depend on the comparison, unless
       keys and values are both searched *)

Lemma tests_test_and_yield {Method : Type}
      (search_matches : Method -> string -> Scalar -> bool)
      (terms : SearchTerms Method) r p x :
  tests (test_and_yield search_matches terms r p x) = [mkCand r p x].
Proof.
  unfold test_and_yield; simpl.
  destruct (yields_on search_matches terms x); reflexivity.
Qed.

Lemma tests_maybe_yield (b : bool) (p : YAMLPath) :
  tests (if b then [Yielded p] else []) = [].
Proof. now destruct b. Qed.

Section SameCandidates.

Context {Method1 Method2 : Type}.
Variable sm1 : Method1 -> string -> Scalar -> bool.
Variable sm2 : Method2 -> string -> Scalar -> bool.
Variable t1 : SearchTerms Method1.
Variable t2 : SearchTerms Method2.
Variable pathsep : PathSeperators.
Variables search_values search_keys include_aliases : bool.
Hypothesis not_both : search_keys && search_values = false.

Variables r1 r2 : Node -> string -> list Event.

Lemma seq_body_same bp seen idx ele :
  (forall p, tests (r1 ele p) = tests (r2 ele p)) ->
  let b1 := seq_body sm1 t1 pathsep search_values include_aliases r1
                     bp seen idx ele in
  let b2 := seq_body sm2 t2 pathsep search_values include_aliases r2
                     bp seen idx ele in
  fst b1 = fst b2 /\ tests (snd b1) = tests (snd b2).
Proof.
  intros Hrec; unfold seq_body.
  destruct (node_anchor ele) as [a|];
    [destruct (seen_in a seen); [destruct (negb include_aliases)|]|];
    simpl; split; trivial;
    destruct ele; try destruct search_values;
    rewrite ?tests_test_and_yield; auto.
Qed.

Lemma seq_loop_same bp items :
  Forall (fun e => forall p, tests (r1 e p) = tests (r2 e p)) items ->
  forall seen idx,
    tests (seq_loop sm1 t1 pathsep search_values include_aliases r1
                    bp seen idx items)
    = tests (seq_loop sm2 t2 pathsep search_values include_aliases r2
                      bp seen idx items).
Proof.
  induction 1 as [|ele rest Hele _ IH]; intros seen idx; simpl; trivial.
  destruct (seq_body_same bp seen idx ele Hele) as [Hs He].
  destruct (seq_body sm1 _ _ _ _ _ _ _ _ _) as [s1 e1].
  destruct (seq_body sm2 _ _ _ _ _ _ _ _ _) as [s2 e2].
  simpl in Hs, He; subst s2.
  now rewrite !tests_app, He, IH.
Qed.

Lemma map_body_same bp seen key val :
  (forall p, tests (r1 val p) = tests (r2 val p)) ->
  let b1 := map_body sm1 t1 pathsep search_values search_keys
                     include_aliases r1 bp seen key val in
  let b2 := map_body sm2 t2 pathsep search_values search_keys
                     include_aliases r2 bp seen key val in
  fst b1 = fst b2 /\ tests (snd b1) = tests (snd b2).
Proof.
  intros Hrec; unfold map_body.
  destruct val as [s| |].
  - destruct search_keys, search_values; simpl in not_both;
      try discriminate; simpl;
      rewrite ?tests_test_and_yield; auto;
      (destruct (anchor s) as [a|];
       [destruct (seen_in a seen); [destruct include_aliases|]|]); simpl;
      rewrite ?tests_maybe_yield; auto.
  - destruct search_keys; simpl;
      rewrite ?tests_app, ?tests_maybe_yield, ?Hrec; auto.
  - destruct search_keys; simpl;
      rewrite ?tests_app, ?tests_maybe_yield, ?Hrec; auto.
Qed.

Lemma map_loop_same bp entries :
  Forall (fun e => forall p, tests (r1 (snd e) p) = tests (r2 (snd e) p))
         entries ->
  forall seen,
    tests (map_loop sm1 t1 pathsep search_values search_keys
                    include_aliases r1 bp seen entries)
    = tests (map_loop sm2 t2 pathsep search_values search_keys
                      include_aliases r2 bp seen entries).
Proof.
  induction 1 as [|[[own key] val] rest Hval _ IH]; intros seen; simpl;
    trivial.
  destruct (in_pool include_aliases own); auto.
  destruct (map_body_same bp seen key val Hval) as [Hs He].
  destruct (map_body sm1 _ _ _ _ _ _ _ _ _ _) as [s1 e1].
  destruct (map_body sm2 _ _ _ _ _ _ _ _ _ _) as [s2 e2].
  simpl in Hs, He; subst s2.
  now rewrite !tests_app, He, IH.
Qed.

End SameCandidates.

Lemma trace_same_candidates {Method1 Method2 : Type}
      (sm1 : Method1 -> string -> Scalar -> bool)
      (sm2 : Method2 -> string -> Scalar -> bool)
      (t1 : SearchTerms Method1) (t2 : SearchTerms Method2)
      (pathsep : PathSeperators)
      (search_values search_keys include_aliases : bool) (data : Node) :
  search_keys && search_values = false ->
  forall build_path,
    tests (search_for_paths_trace sm1 t1 pathsep search_values search_keys
             include_aliases data build_path)
    = tests (search_for_paths_trace sm2 t2 pathsep search_values
               search_keys include_aliases data build_path).
Proof.
  intros Hnb.
  induction data as [s|a items IH|a entries IH] using Node_ind;
    intros build_path; simpl.
  - reflexivity.
  - eapply seq_loop_same; eassumption.
  - eapply map_loop_same; eassumption.
Qed.

(** ** C1: a run and its inverted run *)

Lemma yields_on_xorb {Method : Type}
      (search_matches : Method -> string -> Scalar -> bool)
      (inv : bool) (m : Method) (t : string) (x : Scalar) :
  yields_on search_matches (mkTerms inv m t) x
  = xorb (search_matches m t x) inv.
Proof.
  unfold yields_on; simpl.
  now destruct (search_matches m t x), inv.
Qed.

(** C1, as the spec words it, fails on [{a: a}] searched for [a] in keys and
    in values: the plain run yields the key and never looks at the value,
    the inverted run tests the key and the value and yields neither. *)
Lemma inversion_partitions_fails_keys_and_values :
  ~ inversion_partitions text_equals tt "a" DOT true true false doc_a_a "".
Proof.
  intros [visited (Hplain & Hinv & _)].
  vm_compute in Hplain, Hinv.
  rewrite <- Hplain in Hinv; discriminate Hinv.
Qed.

(** C1 (amended): in every run, whatever the flags, the yields are the paths
    of exactly those tested candidates on which [matches XOR invert] holds;
    and unless keys and values are both searched, the run with the predicate
    as given and the run with it inverted test the same candidates and share
    them out without overlap. *)
Theorem inversion_complements {Method : Type}
        (search_matches : Method -> string -> Scalar -> bool)
        (m : Method) (t : string) (pathsep : PathSeperators)
        (search_values search_keys include_aliases : bool)
        (data : Node) (build_path : string) :
  (forall inv : bool,
      let evs :=
        search_for_paths_trace search_matches (mkTerms inv m t) pathsep
          search_values search_keys include_aliases data build_path in
      yields evs
      = map path
            (filter (fun c => xorb (search_matches m t (hay c)) inv)
                    (tests evs)))
  /\ (search_keys && search_values = false ->
      inversion_partitions search_matches m t pathsep search_values
        search_keys include_aliases data build_path).
Proof.
  assert (Hpt : forall inv : bool,
             let evs :=
               search_for_paths_trace search_matches (mkTerms inv m t)
                 pathsep search_values search_keys include_aliases data
                 build_path in
             yields evs
             = map path
                   (filter (fun c => xorb (search_matches m t (hay c)) inv)
                           (tests evs))).
  { intros inv evs.
    pose proof (trace_coherent search_matches (mkTerms inv m t) pathsep
                  search_values search_keys include_aliases data
                  build_path) as H.
    unfold yields_answer_tests in H; fold evs in H; rewrite H.
    f_equal; apply filter_ext; intros c; apply yields_on_xorb. }
  split; [exact Hpt|].
  intros Hnb; unfold inversion_partitions.
  eexists; split; [reflexivity|]; split.
  - symmetry; now apply trace_same_candidates.
  - split.
    + rewrite (Hpt false); f_equal; apply filter_ext.
      intros c; apply xorb_false_r.
    + rewrite (Hpt true).
      rewrite (trace_same_candidates search_matches search_matches
                 (mkTerms true m t) (mkTerms false m t)) by assumption.
      f_equal; apply filter_ext; intros c; apply xorb_true_r.
Qed.

Lemma inversion_complements_witness :
  false && true = false
  /\ inversion_partitions text_equals tt "20" DOT true false false
       doc_numbers "".
Proof.
  split; [reflexivity|].
  apply (inversion_complements text_equals tt "20" DOT true false false
           doc_numbers "").
  reflexivity.
Defined.

(** ** C2: the scope of alias de-duplication *)

Lemma seen_in_app a xs ys :
  seen_in a (xs ++ ys) = seen_in a xs || seen_in a ys.
Proof. apply existsb_app. Qed.

Lemma seen_in_snoc_known a x xs :
  seen_in a xs = true -> seen_in x (xs ++ [a]) = seen_in x xs.
Proof.
  intros Ha; rewrite seen_in_app; simpl.
  destruct (String.eqb_spec x a) as [->|_].
  - now rewrite Ha.
  - now rewrite !orb_false_r.
Qed.

Lemma same_names_snoc xs ys a :
  same_names xs ys -> same_names (xs ++ [a]) (ys ++ [a]).
Proof. intros H x; now rewrite !seen_in_app, H. Qed.

Lemma same_names_snoc_known xs ys a :
  same_names xs ys -> seen_in a xs = true -> same_names xs (ys ++ [a]).
Proof.
  intros H Ha x.
  rewrite seen_in_snoc_known by now rewrite <- H.
  apply H.
Qed.

Lemma direct_anchors_snoc before ele :
  direct_anchors (before ++ [ele])
  = (direct_anchors before
     ++ match node_anchor ele with Some a => [a] | None => [] end)%list.
Proof.
  unfold direct_anchors; rewrite flat_map_app; simpl.
  now rewrite app_nil_r.
Qed.

Section Scope.

Context {Method : Type}.
Variable search_matches : Method -> string -> Scalar -> bool.
Variable terms : SearchTerms Method.
Variable pathsep : PathSeperators.
Variables search_values search_keys include_aliases : bool.
Variable recurse : Node -> string -> list Event.

Lemma seq_loop_scan bp items :
  forall before seen,
    same_names seen (direct_anchors before) ->
    seq_loop search_matches terms pathsep search_values include_aliases
             recurse bp seen (List.length before) items
    = seq_scan search_matches terms pathsep search_values include_aliases
               recurse bp before items.
Proof.
  induction items as [|ele rest IH]; intros before seen Hseen; simpl;
    trivial.
  specialize (IH (before ++ [ele])%list).
  rewrite length_app, Nat.add_1_r, direct_anchors_snoc in IH.
  unfold seq_body, element_path, bears_one_of.
  destruct (node_anchor ele) as [a|].
  - rewrite <- (Hseen a).
    destruct (seen_in a seen) eqn:Ha.
    + destruct include_aliases; simpl; f_equal;
        apply IH; apply same_names_snoc_known; assumption.
    + rewrite andb_false_r; f_equal.
      apply IH; apply same_names_snoc; assumption.
  - rewrite andb_false_r; f_equal.
    rewrite app_nil_r in IH; apply IH; assumption.
Qed.

Lemma reached_value_anchors_snoc before e :
  reached_value_anchors search_matches terms search_values search_keys
    include_aliases (before ++ [e])
  = (reached_value_anchors search_matches terms search_values search_keys
       include_aliases before
     ++ reached_value_anchors search_matches terms search_values
          search_keys include_aliases [e])%list.
Proof. unfold reached_value_anchors; now rewrite flat_map_app. Qed.

Lemma map_loop_scan bp entries :
  forall before seen,
    same_names seen
      (reached_value_anchors search_matches terms search_values search_keys
         include_aliases before) ->
    map_loop search_matches terms pathsep search_values search_keys
             include_aliases recurse bp seen entries
    = map_scan search_matches terms pathsep search_values search_keys
               include_aliases recurse bp before entries.
Proof.
  induction entries as [|[[own key] val] rest IH]; intros before seen Hseen;
    simpl; trivial.
  specialize (IH (before ++ [(own, key, val)])%list).
  rewrite reached_value_anchors_snoc in IH.
  unfold reached_value_anchors at 2 in IH; simpl in IH.
  unfold map_body, value_reached in *.
  destruct val as [s| |]; destruct (in_pool include_aliases own);
    simpl in *; rewrite ?app_nil_r in IH; try (f_equal; apply IH; assumption);
    try (apply IH; assumption).
  destruct (search_values
            && negb (search_keys && yields_on search_matches terms key));
    simpl in *; rewrite ?app_nil_r in *.
  2:{ f_equal; apply IH; assumption. }
  unfold bears_one_of.
  destruct (anchor s) as [a|]; simpl in *.
  - rewrite <- (Hseen a).
    destruct (seen_in a seen) eqn:Ha.
    + destruct include_aliases; simpl; rewrite ?app_nil_r; f_equal;
        apply IH; apply same_names_snoc_known; assumption.
    + rewrite andb_false_r; simpl; f_equal.
      apply IH; apply same_names_snoc; assumption.
  - rewrite app_nil_r in IH; rewrite andb_false_r; simpl; f_equal.
    apply IH; assumption.
Qed.

End Scope.

Lemma sequence_trace_is_scan {Method : Type}
      (search_matches : Method -> string -> Scalar -> bool)
      (terms : SearchTerms Method) (pathsep : PathSeperators)
      (search_values search_keys include_aliases : bool)
      (a : option string) (build_path : string) (items : list Node) :
  let search :=
    search_for_paths_trace search_matches terms pathsep search_values
      search_keys include_aliases in
  search (CommentedSeq a items) build_path
  = seq_scan search_matches terms pathsep search_values include_aliases
             search (seq_prefix pathsep build_path) [] items.
Proof.
  intros search; simpl.
  apply (seq_loop_scan search_matches terms pathsep search_values
           include_aliases search _ items []).
  intros x; reflexivity.
Qed.

Lemma mapping_trace_is_scan {Method : Type}
      (search_matches : Method -> string -> Scalar -> bool)
      (terms : SearchTerms Method) (pathsep : PathSeperators)
      (search_values search_keys include_aliases : bool)
      (a : option string) (build_path : string)
      (entries : list (bool * Scalar * Node)) :
  let search :=
    search_for_paths_trace search_matches terms pathsep search_values
      search_keys include_aliases in
  search (CommentedMap a entries) build_path
  = map_scan search_matches terms pathsep search_values search_keys
             include_aliases search (map_prefix pathsep build_path)
             [] entries.
Proof.
  intros search; simpl.
  apply (map_loop_scan search_matches terms pathsep search_values
           search_keys include_aliases search _ entries []).
  intros x; reflexivity.
Qed.

(** The anchored scalar and its alias in two sequences: both are tested. *)
Example alias_in_two_sequences :
  search_for_paths text_equals (mkTerms false tt "x") DOT true false false
    doc_alias_apart ""
  = ["[0][&A]"; "[1][&A]"].
Proof. reflexivity. Qed.

(** In one sequence the alias is passed over, unless aliases are asked for. *)
Example alias_in_one_sequence :
  search_for_paths text_equals (mkTerms false tt "x") DOT true false false
    doc_alias_together "" = ["[&A]"]
  /\ search_for_paths text_equals (mkTerms false tt "x") DOT true false true
       doc_alias_together "" = ["[&A]"; "[&A]"].
Proof. split; reflexivity. Qed.

(** C2: the scan of a container is the scan stated on its direct children.
    It starts with no child processed; an element of a sequence is passed
    over exactly when aliases are not asked for and it bears the anchor of
    an element before it in that sequence; a scalar value of a mapping that
    is reached is passed over exactly when aliases are not asked for and it
    bears the anchor of a reached scalar value before it in that mapping;
    and every child container that is not passed over is scanned by a call
    of [search_for_paths] of its own, which starts again with no child
    processed. *)
Theorem dedup_is_per_container {Method : Type}
        (search_matches : Method -> string -> Scalar -> bool)
        (terms : SearchTerms Method) (pathsep : PathSeperators)
        (search_values search_keys include_aliases : bool)
        (a : option string) (build_path : string) :
  let search :=
    search_for_paths_trace search_matches terms pathsep search_values
      search_keys include_aliases in
  (forall items,
      search (CommentedSeq a items) build_path
      = seq_scan search_matches terms pathsep search_values include_aliases
                 search (seq_prefix pathsep build_path) [] items)
  /\ (forall entries,
         search (CommentedMap a entries) build_path
         = map_scan search_matches terms pathsep search_values search_keys
                    include_aliases search (map_prefix pathsep build_path)
                    [] entries).
Proof.
  intros search; split.
  - intros items; apply sequence_trace_is_scan.
  - intros entries; apply mapping_trace_is_scan.
Qed.

(** ** C8: a matched key stands for its pair *)

Lemma map_scan_app {Method : Type}
      (search_matches : Method -> string -> Scalar -> bool)
      (terms : SearchTerms Method) (pathsep : PathSeperators)
      (search_values search_keys include_aliases : bool)
      (recurse : Node -> string -> list Event) (bp : string) xs :
  forall before ys,
    map_scan search_matches terms pathsep search_values search_keys
             include_aliases recurse bp before (xs ++ ys)
    = (map_scan search_matches terms pathsep search_values search_keys
                include_aliases recurse bp before xs
       ++ map_scan search_matches terms pathsep search_values search_keys
                   include_aliases recurse bp (before ++ xs) ys)%list.
Proof.
  induction xs as [|[[own key] val] xs IH]; intros before ys; simpl.
  - now rewrite app_nil_r.
  - rewrite IH, <- !app_assoc; simpl; reflexivity.
Qed.

(** C8: in a mapping scanned with [search_keys], an entry of the pool whose
    key satisfies [matches XOR invert] contributes the test of its key and
    the yield of its path, then nothing more when its value is a scalar (the
    value is not tested, so the pair gives one result), and the whole scan
    of its value when that is a container.  The entries before and after it
    are scanned as they are without it in between. *)
Theorem matched_key_stands_for_pair {Method : Type}
        (search_matches : Method -> string -> Scalar -> bool)
        (terms : SearchTerms Method) (pathsep : PathSeperators)
        (search_values search_keys include_aliases : bool)
        (a : option string) (build_path : string)
        (pre post : list (bool * Scalar * Node))
        (own : bool) (key : Scalar) (val : Node) :
  search_keys = true ->
  in_pool include_aliases own = true ->
  yields_on search_matches terms key = true ->
  let search :=
    search_for_paths_trace search_matches terms pathsep search_values
      search_keys include_aliases in
  let scan :=
    map_scan search_matches terms pathsep search_values search_keys
      include_aliases search (map_prefix pathsep build_path) in
  let tmp_path := key_path pathsep (map_prefix pathsep build_path) key in
  search (CommentedMap a (pre ++ (own, key, val) :: post)) build_path
  = (scan [] pre
     ++ Tested (mkCand RKey tmp_path key) :: Yielded tmp_path
        :: match val with
           | NScalar _ => []
           | _ => search val tmp_path
           end
     ++ scan (pre ++ [(own, key, val)]) post)%list.
Proof.
  intros Hkeys Hpool Hkey search scan tmp_path.
  unfold search; rewrite mapping_trace_is_scan; fold search scan.
  unfold scan; rewrite map_scan_app; f_equal; simpl.
  rewrite Hpool, Hkeys; unfold value_reached, test_and_yield.
  rewrite Hkey, andb_false_r; simpl.
  destruct val; reflexivity.
Qed.

Lemma matched_key_stands_for_pair_witness :
  search_for_paths_trace text_equals (mkTerms false tt "k") DOT true true
    false doc_key_over_seq ""
  = [Tested (mkCand RKey "k" (plain "k")); Yielded "k";
     Tested (mkCand RElement "k[0]" (plain "k")); Yielded "k[0]"].
Proof.
  exact (matched_key_stands_for_pair text_equals (mkTerms false tt "k") DOT
           true true false None "" [] [] true (plain "k")
           (CommentedSeq None [NScalar (plain "k")])
           eq_refl eq_refl eq_refl).
Defined.

(** The scalar value of a pair whose key matched is not tested: one result
    for [{a: a}]. *)
Example one_result_for_matched_pair :
  search_for_paths_trace text_equals (mkTerms false tt "a") DOT true true
    false doc_a_a ""
  = [Tested (mkCand RKey "a" (plain "a")); Yielded "a"].
Proof. reflexivity. Qed.

(** ** C10: keys are outside anchor de-duplication *)

(** C10: in a mapping scanned with [search_keys], the key of every entry of
    the pool is tested (and yielded when [matches XOR invert] holds),
    whatever anchor it bears and whatever anchors were seen; and an
    iteration of the loop leaves [seen_anchors] as it was or appends the
    anchor of the entry's scalar value, never the key's. *)
Theorem keys_are_not_deduplicated {Method : Type}
        (search_matches : Method -> string -> Scalar -> bool)
        (terms : SearchTerms Method) (pathsep : PathSeperators)
        (search_values search_keys include_aliases : bool)
        (a : option string) (build_path : string)
        (pre post : list (bool * Scalar * Node))
        (own : bool) (key : Scalar) (val : Node)
        (seen_anchors : list string) :
  search_keys = true ->
  in_pool include_aliases own = true ->
  let search :=
    search_for_paths_trace search_matches terms pathsep search_values
      search_keys include_aliases in
  let bp := map_prefix pathsep build_path in
  let scan :=
    map_scan search_matches terms pathsep search_values search_keys
      include_aliases search bp in
  let seen' :=
    fst (map_body search_matches terms pathsep search_values search_keys
           include_aliases search bp seen_anchors key val) in
  (exists tail,
      search (CommentedMap a (pre ++ (own, key, val) :: post)) build_path
      = (scan [] pre
         ++ test_and_yield search_matches terms RKey
              (key_path pathsep bp key) key
         ++ tail)%list)
  /\ (seen' = seen_anchors
      \/ exists s anchor_name,
           val = NScalar s /\ anchor s = Some anchor_name
           /\ seen_in anchor_name seen_anchors = false
           /\ seen' = (seen_anchors ++ [anchor_name])%list).
Proof.
  intros Hkeys Hpool search bp scan seen'; split.
  - unfold search; rewrite mapping_trace_is_scan; fold search bp scan.
    unfold scan; rewrite map_scan_app; simpl.
    rewrite Hpool, Hkeys, <- !app_assoc.
    eexists; reflexivity.
  - unfold seen', map_body.
    destruct val as [s| |]; simpl; auto.
    destruct (search_values && negb _); simpl; auto.
    destruct (anchor s) as [anchor_name|] eqn:Hs; simpl; auto.
    destruct (seen_in anchor_name seen_anchors) eqn:Hseen.
    + destruct (negb include_aliases); simpl; auto.
    + right; exists s, anchor_name; auto.
Qed.

Lemma keys_are_not_deduplicated_witness :
  exists tail,
    search_for_paths_trace text_equals (mkTerms false tt "x") DOT true true
      false doc_alias_key ""
    = ([Tested (mkCand RKey "a" (plain "a"));
        Tested (mkCand RValue "a" (anchored "X" "x")); Yielded "a"]
       ++ [Tested (mkCand RKey "x" (anchored "X" "x")); Yielded "x"]
       ++ tail)%list.
Proof.
  exact (proj1 (keys_are_not_deduplicated text_equals
                  (mkTerms false tt "x") DOT true true false None ""
                  [(true, plain "a", NScalar (anchored "X" "x"))] []
                  true (anchored "X" "x") (NScalar (plain "y")) ["X"]
                  eq_refl eq_refl)).
Defined.

(** The key [*X] of [{a: &X x, *X: y}] is tested and yielded although the
    anchor [X] was recorded for the value before it. *)
Example alias_key_is_yielded :
  search_for_paths text_equals (mkTerms false tt "x") DOT true true false
    doc_alias_key "" = ["a"; "x"].
Proof. reflexivity. Qed.

(** ** C3: what a path escapes *)





(** The path yielded for the value of the key [a[b]. *)
Example bracket_key_path :
  search_for_paths text_equals (mkTerms false tt "v") DOT true false false
    doc_bracket_key "" = ["a[b"].
Proof. reflexivity. Qed.

(** The path yielded for an element anchored [x.y]. *)
Example dotted_anchor_path :
  search_for_paths text_equals (mkTerms false tt "v") DOT true false false
    doc_dotted_anchor "" = ["[&x\.y]"].
Proof. reflexivity. Qed.




(* ================================================================== *)
(** * Facts about the merge command *)
(* ================================================================== *)

Import YamlMerge.

Section MergeFacts.

Context {Doc Merger : Type}.
Variable env : Env Doc Merger.
Variable args : Args.

Local Notation "'lf'" := (last_failure failure_status).

Lemma last_failure_app (status : Action Doc Merger -> option nat)
      so_far l1 l2 :
  last_failure status so_far (l1 ++ l2)
  = last_failure status (last_failure status so_far l1) l2.
Proof. apply fold_left_app. Qed.

(** ** [validateargs] *)

Lemma validateargs_passes :
  too_few_files env args || many_pseudofiles args
  || config_unreadable env args || output_exists env args = false ->
  validateargs env args = ([], Return tt).
Proof.
  unfold validateargs, check.
  destruct (too_few_files env args), (many_pseudofiles args),
    (config_unreadable env args), (output_exists env args);
    simpl; intros H; try discriminate; reflexivity.
Qed.

Lemma validateargs_fails :
  too_few_files env args || many_pseudofiles args
  || config_unreadable env args || output_exists env args = true ->
  snd (validateargs env args) = SysExit 1
  /\ forallb is_log_error (fst (validateargs env args)) = true
  /\ forall so_far, lf so_far (fst (validateargs env args)) = 1.
Proof.
  unfold validateargs, check.
  destruct (too_few_files env args), (many_pseudofiles args),
    (config_unreadable env args), (output_exists env args);
    simpl; intros H; try discriminate; auto.
Qed.

Lemma main_when_validation_fails :
  too_few_files env args || many_pseudofiles args
  || config_unreadable env args || output_exists env args = true ->
  exit_status env args = 1
  /\ forallb is_log_error (actions env args) = true
  /\ lf 0 (actions env args) = 1.
Proof.
  intros H; destruct (validateargs_fails H) as (Hr & Hl & Hf).
  unfold exit_status, actions, main.
  destruct (validateargs env args) as [log [[]|code]]; simpl in *;
    try discriminate.
  injection Hr as ->; auto.
Qed.

(** ** Each piece answers for its failures

    A piece of the command that returns a status returns the status of the
    last failure it logged, or leaves the status it was given. *)

Lemma process_rhs_status merger rhs_file :
  exists log merger' st,
    process_rhs env merger rhs_file = (log, Return (merger', st))
    /\ forallb (fun a => negb (is_dump a)) log = true
    /\ forall so_far,
        lf so_far log = if (st =? 0)%nat then so_far else st.
Proof.
  unfold process_rhs.
  destruct (negb (rhs_file =? "-") && negb (isfile env rhs_file));
    [do 3 eexists; split; [reflexivity|split; reflexivity]|].
  destruct (get_yaml_data env rhs_file true) as [data|];
    [|do 3 eexists; split; [reflexivity|split; reflexivity]].
  destruct (merge_with env merger data) as [merger' [[]|]];
    do 3 eexists; (split; [reflexivity|split; reflexivity]).
Qed.

Lemma multidoc_loop_status docs :
  forall merger doc_number exit_state,
  exists log merger' st,
    multidoc_loop env merger docs doc_number exit_state
    = (log, Return (merger', st))
    /\ forallb (fun a => negb (is_dump a)) log = true
    /\ lf exit_state log = st.
Proof.
  induction docs as [|[d|] rest IH]; intros merger doc_number exit_state;
    simpl.
  - do 3 eexists; split; [reflexivity|split; reflexivity].
  - destruct (merge_with env merger (OneDoc d)) as [merger' [[]|]].
    + destruct (IH merger' (S doc_number) 6) as (log & m & st & -> & Hd & H).
      do 3 eexists; split; [reflexivity|split; simpl; assumption].
    + destruct (IH merger' (S doc_number) 7) as (log & m & st & -> & Hd & H).
      do 3 eexists; split; [reflexivity|split; simpl; assumption].
    + destruct (IH merger' (S doc_number) exit_state)
        as (log & m & st & -> & Hd & H).
      do 3 eexists; split; [reflexivity|split; simpl; assumption].
  - apply IH.
Qed.

Lemma rhs_loop_status files :
  forall merger consumed_stdin exit_state,
  exists log merger' consumed' st,
    rhs_loop env merger files consumed_stdin exit_state
    = (log, Return (merger', consumed', st))
    /\ forallb (fun a => negb (is_dump a)) log = true
    /\ lf exit_state log = st.
Proof.
  induction files as [|rhs_file rest IH];
    intros merger consumed_stdin exit_state; simpl.
  - do 4 eexists; split; [reflexivity|split; reflexivity].
  - destruct (process_rhs_status merger rhs_file)
      as (log & merger' & st & -> & Hd & H).
    simpl; destruct st as [|st]; simpl.
    + destruct (IH merger' (consumed_stdin || is_pseudofile rhs_file)
                   exit_state) as (log' & m & c & st' & -> & Hd' & H').
      do 4 eexists; split; [reflexivity|split].
      * now rewrite forallb_app, Hd, Hd'.
      * rewrite last_failure_app, H; simpl; exact H'.
    + do 4 eexists; split; [reflexivity|split].
      * now rewrite app_nil_r.
      * rewrite app_nil_r, H; reflexivity.
Qed.

Lemma main_finish_status merger consumed_stdin exit_state :
  exists log st,
    main_finish env args merger consumed_stdin exit_state
    = (log, SysExit st)
    /\ lf exit_state log = st
    /\ dumps_on_success log st.
Proof.
  unfold main_finish.
  destruct ((exit_state =? 0)%nat && negb consumed_stdin
            && negb (nostdin args) && negb (stdin_isatty env)) eqn:E.
  - apply andb_prop in E; destruct E as [E _].
    apply andb_prop in E; destruct E as [E _].
    apply andb_prop in E; destruct E as [E _].
    apply Nat.eqb_eq in E; subst exit_state.
    destruct (process_rhs_status merger "-")
      as (log & merger' & st & -> & Hd & H).
    simpl; destruct st as [|st]; simpl.
    + do 2 eexists; split; [reflexivity|split].
      * rewrite ?app_nil_r, last_failure_app, H; reflexivity.
      * split; [congruence|intros _].
        rewrite ?app_nil_r; do 3 eexists; split; [reflexivity|exact Hd].
    + do 2 eexists; split; [reflexivity|split].
      * rewrite ?app_nil_r, H; reflexivity.
      * split; [intros _; now rewrite ?app_nil_r|discriminate].
  - clear E; simpl; destruct exit_state as [|st]; simpl.
    + do 2 eexists; split; [reflexivity|split; [reflexivity|]].
      split; [congruence|intros _].
      exists []; do 2 eexists; split; reflexivity.
    + do 2 eexists; split; [reflexivity|split; [reflexivity|]].
      split; [reflexivity|discriminate].
Qed.

Lemma dumps_on_success_app log1 log2 st :
  forallb (fun a : Action Doc Merger => negb (is_dump a)) log1 = true ->
  dumps_on_success log2 st -> dumps_on_success (log1 ++ log2) st.
Proof.
  intros H1 [Hn Hz]; split.
  - intros Hst; rewrite forallb_app, H1; simpl; auto.
  - intros Hst; destruct (Hz Hst) as (pre & t & d & -> & Hpre).
    exists (log1 ++ pre)%list, t, d; split.
    + now rewrite app_assoc.
    + now rewrite forallb_app, H1, Hpre.
Qed.

Lemma main_merge_status merger lhs_is_multidoc prime_data fileiterator
      consumed_stdin :
  exists log st,
    main_merge env args merger lhs_is_multidoc prime_data fileiterator
               consumed_stdin = (log, SysExit st)
    /\ lf 0 log = st
    /\ dumps_on_success log st.
Proof.
  unfold main_merge, process_multidoc.
  assert (Hrest : forall merger0,
             exists log st,
               (r <- rhs_loop env merger0 fileiterator consumed_stdin 0 ;;
                let '(merger1, consumed1, exit_state) := r in
                main_finish env args merger1 consumed1 exit_state)%run
               = (log, SysExit st)
               /\ lf 0 log = st /\ dumps_on_success log st).
  { intros merger0.
    destruct (rhs_loop_status fileiterator merger0 consumed_stdin 0)
      as (log & m & c & st & -> & Hd & H).
    destruct (main_finish_status m c st) as (log' & st' & E & H' & Hs).
    simpl; rewrite E.
    do 2 eexists; split; [reflexivity|split].
    - rewrite last_failure_app, H; exact H'.
    - now apply dumps_on_success_app. }
  destruct lhs_is_multidoc; simpl.
  - destruct (multidoc_loop_status prime_data merger 0 0)
      as (log & m & st & -> & Hd & H).
    simpl; destruct st as [|st]; simpl.
    + destruct (Hrest m) as (log' & st' & -> & H' & Hs).
      do 2 eexists; split; [reflexivity|split].
      * rewrite last_failure_app, H; exact H'.
      * now apply dumps_on_success_app.
    + do 2 eexists; split; [reflexivity|split].
      * now rewrite ?app_nil_r.
      * split; [intros _; now rewrite ?app_nil_r|discriminate].
  - destruct (Hrest merger) as (log' & st' & -> & H' & Hs).
    do 2 eexists; split; [reflexivity|split; assumption].
Qed.

Lemma main_status :
  exists log st,
    main env args = (log, SysExit st)
    /\ lf 0 log = st
    /\ dumps_on_success log st.
Proof.
  unfold main.
  destruct (too_few_files env args || many_pseudofiles args
            || config_unreadable env args || output_exists env args)
    eqn:Hv.
  - destruct (validateargs_fails Hv) as (Hr & Hl & Hf).
    destruct (validateargs env args) as [log [[]|code]]; simpl in *;
      try discriminate.
    injection Hr as ->.
    do 2 eexists; split; [reflexivity|split; [apply Hf|]].
    split; [intros _|discriminate].
    clear -Hl; induction log as [|[] log IH]; simpl in *;
      try discriminate; auto.
  - rewrite (validateargs_passes Hv); simpl.
    destruct (rhs_files args) as [|prime_file fileiterator] eqn:Hfiles;
      simpl.
    { unfold too_few_files in Hv; rewrite Hfiles in Hv; discriminate Hv. }
    assert (Hcritical :
              exists log st,
                (GetYamlData prime_file false
                             (get_yaml_data env prime_file false)
                 :: fst (@log_critical Doc Merger unit
                           (NothingToMergeInto prime_file) 1),
                 snd (@log_critical Doc Merger unit
                        (NothingToMergeInto prime_file) 1))
                = (log, SysExit st)
                /\ lf 0 log = st /\ dumps_on_success log st).
    { do 2 eexists; split; [reflexivity|split; [reflexivity|]].
      split; [reflexivity|discriminate]. }
    assert (Hmerge :
              forall d multi rest,
              exists log st,
                (GetYamlData prime_file false
                             (get_yaml_data env prime_file false)
                 :: fst (main_merge env args (new_merger env d) multi rest
                           fileiterator (is_pseudofile prime_file)),
                 snd (main_merge env args (new_merger env d) multi rest
                        fileiterator (is_pseudofile prime_file)))
                = (log, SysExit st)
                /\ lf 0 log = st /\ dumps_on_success log st).
    { intros d multi rest.
      destruct (main_merge_status (new_merger env d) multi rest fileiterator
                  (is_pseudofile prime_file))
        as (log' & st' & -> & H & Hs).
      do 2 eexists; split; [reflexivity|split; [exact H|]].
      now apply (dumps_on_success_app [_] log'). }
    destruct (get_yaml_data env prime_file false) as [[d|docs]|].
    + specialize (Hmerge d false []).
      destruct (main_merge _ _ _ _ _ _ _); exact Hmerge.
    + destruct (next_doc docs) as [d|].
      * specialize (Hmerge d true (tl docs)).
        destruct (main_merge _ _ _ _ _ _ _); exact Hmerge.
      * exact Hcritical.
    + exact Hcritical.
Qed.

(** ** C5: the exit status *)

Lemma last_failure_cases (status : Action Doc Merger -> option nat) log :
  forall so_far,
    (last_failure status so_far log = so_far
     /\ forall a, In a log -> status a = None)
    \/ exists a, In a log
                 /\ status a = Some (last_failure status so_far log).
Proof.
  induction log as [|a rest IH]; intros so_far; simpl.
  - left; split; [reflexivity|contradiction].
  - destruct (status a) as [code|] eqn:Ha.
    + destruct (IH code) as [[E Hnone]|(a' & Hin & Ha')].
      * right; exists a; split; [now left|now rewrite E].
      * right; exists a'; split; [now right|assumption].
    + destruct (IH so_far) as [[E Hnone]|(a' & Hin & Ha')].
      * left; split; [assumption|].
        intros x [<-|Hx]; auto.
      * right; exists a'; split; [now right|assumption].
Qed.

Lemma failure_status_not_0 (a : Action Doc Merger) :
  failure_status a <> Some 0.
Proof.
  destruct a as [[]|m|source [] [data|]|[] rhs [[]|]|]; simpl; discriminate.
Qed.

(** C5 (amended): the exit status is 0 exactly when the run has no failure,
    and is otherwise the status of a failure of the run, where a failed
    validation or a first source with no document in it stands for 1, a
    right-hand file that is not a file for 2, a right-hand source that does
    not load for 3, a [MergeException] or a [YAMLPathException] on a
    right-hand source, single-document or multi-document alike, for 4 or 5,
    and on a further document of a multi-document first source for 6 or
    7. *)
Theorem exit_status_by_failure :
  (exit_status env args = 0 <->
   forall a, In a (actions env args) -> failure_status a = None)
  /\ (exit_status env args <> 0 ->
      exists a, In a (actions env args)
                /\ failure_status a = Some (exit_status env args)).
Proof.
  destruct main_status as (log & st & E & H & _).
  unfold exit_status, actions; rewrite E; simpl.
  destruct (last_failure_cases failure_status log 0)
    as [[H0 Hnone]|(a & Hin & Ha)]; rewrite H in *.
  - subst st; split; [split; auto|].
    intros Hst; now elim Hst.
  - assert (Hst : st <> 0).
    { intros ->; now apply (failure_status_not_0 a). }
    split; [split|].
    + intros Hz; now elim Hst.
    + intros Hnone; rewrite (Hnone a Hin) in Ha; discriminate.
    + intros _; exists a; auto.
Qed.

(** ** C7: nothing is dumped by a run that fails *)

Lemma no_dump_in log :
  forallb (fun a : Action Doc Merger => negb (is_dump a)) log = true ->
  forall target data, ~ In (Dump target data) log.
Proof.
  intros H target data Hin.
  rewrite forallb_forall in H; specialize (H _ Hin); discriminate H.
Qed.

(** C7: a run that ends with a status other than 0 has no dump among its
    actions; a run that ends with 0 dumps once, as its last action. *)
Theorem dump_only_on_success :
  (exit_status env args <> 0 ->
   forall target data, ~ In (Dump target data) (actions env args))
  /\ (exit_status env args = 0 ->
      exists pre target data,
        actions env args = (pre ++ [Dump target data])%list
        /\ forall target' data', ~ In (Dump target' data') pre).
Proof.
  destruct main_status as (log & st & E & _ & Hn & Hz).
  unfold exit_status, actions; rewrite E; simpl; split.
  - intros Hst; apply no_dump_in; auto.
  - intros Hst; destruct (Hz Hst) as (pre & t & d & -> & Hpre).
    exists pre, t, d; split; [reflexivity|now apply no_dump_in].
Qed.

(** ** C6 and C9: what [validateargs] turns away *)

(** C6: when the sources, counting STDIN where it is implied, are fewer than
    two, or more than one of them is STDIN, the run ends with status 1 and
    has done nothing but log errors: no source was handed to the loader. *)
Theorem too_few_sources_or_two_stdin_rejected :
  source_count env args < 2 \/ 1 < stdin_count env args ->
  exit_status env args = 1
  /\ forallb is_log_error (actions env args) = true.
Proof.
  intros H.
  assert (Hv : too_few_files env args || many_pseudofiles args = true).
  { unfold source_count, stdin_count, implied_stdin, too_few_files,
      many_pseudofiles in *.
    assert (Hone : forall f, rhs_files args = [f] ->
                             pseudofile_count args
                             = if is_pseudofile f then 1 else 0).
    { intros f Hf; unfold pseudofile_count; rewrite Hf; simpl.
      now destruct (is_pseudofile f). }
    destruct (Nat.ltb_spec 1 (pseudofile_count args)) as [Hpc|Hpc];
      [now rewrite orb_true_r|].
    rewrite orb_false_r.
    destruct (rhs_files args) as [|f [|g rest]]; simpl in *; trivial.
    - rewrite (Hone f eq_refl) in *.
      destruct (is_pseudofile f), (stdin_isatty env), (nostdin args);
        simpl in *; trivial; destruct H; lia.
    - destruct (negb (stdin_isatty env) && negb (nostdin args));
        destruct (pseudofile_count args) as [|[|n]];
        simpl in *; destruct H; lia. }
  destruct (@main_when_validation_fails) as (He & Hl & _); auto.
  now rewrite Hv.
Qed.

(** C9: when [--output] names a path that exists, the run ends with status
    1, having logged that and done nothing else than log errors: no source
    was read and nothing was written. *)
Theorem existing_output_rejected (path : string) :
  output args = Some path ->
  path <> "" ->
  exists_ env path = true ->
  exit_status env args = 1
  /\ forallb is_log_error (actions env args) = true
  /\ In (LogError (OutputExists path)) (actions env args).
Proof.
  intros Hout Hpath Hex.
  assert (Ho : output_exists env args = true).
  { unfold output_exists; rewrite Hout; simpl.
    apply String.eqb_neq in Hpath; now rewrite Hpath, Hex. }
  destruct (@main_when_validation_fails) as (He & Hl & _).
  { now rewrite Ho, orb_true_r. }
  split; [exact He|split; [exact Hl|]].
  unfold actions, main, validateargs, check; rewrite Ho, Hout.
  destruct (too_few_files env args), (many_pseudofiles args),
    (config_unreadable env args); simpl; auto 6.
Qed.

End MergeFacts.

(** C5, as the spec words it, fails on a right-hand file of several
    documents that cannot be merged: the run ends with 4, the status of a
    single-document source, not with 6. *)
Lemma multidoc_rhs_conflict_is_4_not_6 :
  ~ follows_spec_statuses env_rhs_stream
      (sample_args ["a.yaml"; "b.yaml"] None).
Proof.
  unfold follows_spec_statuses; vm_compute; discriminate.
Qed.

Lemma exit_status_by_failure_witness :
  exit_status env_rhs_stream (sample_args ["a.yaml"; "b.yaml"] None) <> 0
  /\ exists a,
      In a (actions env_rhs_stream (sample_args ["a.yaml"; "b.yaml"] None))
      /\ failure_status a = Some 4.
Proof.
  split.
  - vm_compute; discriminate.
  - apply (proj2 (exit_status_by_failure env_rhs_stream
                    (sample_args ["a.yaml"; "b.yaml"] None))).
    vm_compute; discriminate.
Defined.

Example multidoc_rhs_conflict_run :
  actions env_rhs_stream (sample_args ["a.yaml"; "b.yaml"] None)
  = [GetYamlData "a.yaml" false (Some (OneDoc 1));
     GetYamlData "b.yaml" true (Some (Stream [Some 2; Some 13]));
     MergeWith (RhsSource "b.yaml") (Stream [Some 2; Some 13])
               (Some MergeException);
     LogError (MergeFailed MergeException)]
  /\ exit_status env_rhs_stream (sample_args ["a.yaml"; "b.yaml"] None) = 4.
Proof. split; reflexivity. Qed.

Lemma dump_only_on_success_witness :
  exit_status env_rhs_stream (sample_args ["a.yaml"; "b.yaml"] None) <> 0
  /\ forall target data,
      ~ In (Dump target data)
           (actions env_rhs_stream (sample_args ["a.yaml"; "b.yaml"] None)).
Proof.
  split.
  - vm_compute; discriminate.
  - apply (proj1 (dump_only_on_success env_rhs_stream
                    (sample_args ["a.yaml"; "b.yaml"] None))).
    vm_compute; discriminate.
Defined.

Lemma too_few_sources_or_two_stdin_rejected_witness :
  1 < stdin_count env_two_files (sample_args ["-"; "-"] None)
  /\ exit_status env_two_files (sample_args ["-"; "-"] None) = 1
  /\ forallb is_log_error
             (actions env_two_files (sample_args ["-"; "-"] None)) = true.
Proof.
  split.
  - vm_compute; lia.
  - apply (too_few_sources_or_two_stdin_rejected env_two_files
             (sample_args ["-"; "-"] None)).
    right; vm_compute; lia.
Defined.

Lemma existing_output_rejected_witness :
  exit_status env_two_files
    (sample_args ["a.yaml"; "b.yaml"] (Some "a.yaml")) = 1
  /\ forallb is_log_error
             (actions env_two_files
                (sample_args ["a.yaml"; "b.yaml"] (Some "a.yaml"))) = true
  /\ In (LogError (OutputExists "a.yaml"))
        (actions env_two_files
           (sample_args ["a.yaml"; "b.yaml"] (Some "a.yaml"))).
Proof.
  apply (existing_output_rejected env_two_files
           (sample_args ["a.yaml"; "b.yaml"] (Some "a.yaml")) "a.yaml").
  - reflexivity.
  - discriminate.
  - reflexivity.
Defined.

(** ** C4: the first failure *)

Lemma merges_app {Doc Merger : Type} (l1 l2 : list (Action Doc Merger)) :
  merges (l1 ++ l2) = (merges l1 ++ merges l2)%list.
Proof.
  induction l1 as [|[] l1 IH]; simpl; congruence.
Qed.

(** The loop over the right-hand files does stop at the first failure: of
    the merges it attempts, only the last can have failed, and then the
    status is not 0. *)
Lemma rhs_loop_stops_at_first_failure {Doc Merger : Type}
      (env : Env Doc Merger) (files : list string) :
  forall merger consumed_stdin exit_state,
    let run := rhs_loop env merger files consumed_stdin exit_state in
    stops_at_first_failure (merges (fst run)) = true.
Proof.
  induction files as [|rhs_file rest IH];
    intros merger consumed_stdin exit_state; simpl; trivial.
  unfold process_rhs.
  destruct (negb (rhs_file =? "-") && negb (isfile env rhs_file));
    simpl; trivial.
  destruct (get_yaml_data env rhs_file true) as [data|]; simpl; trivial.
  destruct (merge_with env merger data) as [merger' [[]|]]; simpl; trivial.
  specialize (IH merger' (consumed_stdin || is_pseudofile rhs_file)
                 exit_state); simpl in IH.
  destruct (rhs_loop env merger' rest _ exit_state) as [log r]; exact IH.
Qed.

(** C4 fails on a first file of three documents the second of which cannot
    be merged: [process_multidoc] notes the status 6 and goes on to merge
    the third document; only then does the run end, with 6. *)
Theorem multidoc_goes_on_after_failure :
  let args := sample_args ["a.yaml"; "b.yaml"] None in
  merges (actions env_broken_stream args)
  = [(PrimePart 1, Some MergeException); (PrimePart 2, None)]
  /\ stops_at_first_failure (merges (actions env_broken_stream args)) = false
  /\ exit_status env_broken_stream args = 6.
Proof. repeat split. Qed.

(* ================================================================== *)
(** * More about the matcher *)
(* ================================================================== *)

(** ** Reasoning on the events of a run *)

(** A property of lists of events that holds of the empty list, of a
    concatenation, and of each test with its yield that the flags allow,
    holds of every run. *)
Lemma trace_events_ind {Method : Type}
      (search_matches : Method -> string -> Scalar -> bool)
      (terms : SearchTerms Method) (pathsep : PathSeperators)
      (search_values search_keys include_aliases : bool)
      (P : list Event -> Prop) :
  P [] ->
  (forall xs ys, P xs -> P ys -> P (xs ++ ys)%list) ->
  (forall r p x,
      role_searched search_values search_keys r = true ->
      P (test_and_yield search_matches terms r p x)) ->
  forall data build_path,
    P (search_for_paths_trace search_matches terms pathsep search_values
         search_keys include_aliases data build_path).
Proof.
  intros Hnil Happ Htest.
  induction data as [s|a items IH|a entries IH] using Node_ind;
    intros build_path; simpl; trivial.
  - generalize (seq_prefix pathsep build_path), (@nil string), 0.
    induction IH as [|ele rest Hele _ IHrest]; intros bp seen idx; simpl;
      trivial.
    unfold seq_body.
    assert (Hvisit : forall p,
               P match ele with
                 | NScalar s =>
                     if search_values
                     then test_and_yield search_matches terms RElement p s
                     else []
                 | _ =>
                     search_for_paths_trace search_matches terms pathsep
                       search_values search_keys include_aliases ele p
                 end).
    { intros p; destruct ele as [s| |]; auto.
      destruct search_values eqn:E; auto. }
    destruct (node_anchor ele) as [name|];
      [destruct (seen_in name seen); [destruct (negb include_aliases)|]|];
      simpl; auto.
  - generalize (map_prefix pathsep build_path), (@nil string).
    induction IH as [|[[own key] val] rest Hval _ IHrest]; intros bp seen;
      simpl; trivial.
    destruct (in_pool include_aliases own); auto.
    unfold map_body.
    assert (Hkey : P (if search_keys
                      then test_and_yield search_matches terms RKey
                             (key_path pathsep bp key) key
                      else [])).
    { destruct search_keys eqn:E; auto. }
    destruct val as [s| |]; simpl in *; auto.
    destruct (search_values && negb _) eqn:E; simpl; auto.
    apply andb_prop in E; destruct E as [E _].
    destruct (anchor s) as [name|];
      [destruct (seen_in name seen); [destruct (negb include_aliases)|]|];
      simpl; auto.
Qed.

(** ** X1: the flags decide which candidates are looked at *)

(** X1: every candidate a run tests has a role the flags ask for: keys are
    tested only under [search_keys], mapping values and sequence elements
    only under [search_values]. *)
Theorem only_searched_roles_are_tested {Method : Type}
        (search_matches : Method -> string -> Scalar -> bool)
        (terms : SearchTerms Method) (pathsep : PathSeperators)
        (search_values search_keys include_aliases : bool)
        (data : Node) (build_path : string) :
  Forall (fun c => role_searched search_values search_keys (role c) = true)
         (tests (search_for_paths_trace search_matches terms pathsep
                   search_values search_keys include_aliases data
                   build_path)).
Proof.
  apply trace_events_ind
    with (P := fun evs =>
                 Forall (fun c => role_searched search_values search_keys
                                    (role c) = true) (tests evs)).
  - constructor.
  - intros xs ys Hx Hy; rewrite tests_app; apply Forall_app; auto.
  - intros r p x Hr; rewrite tests_test_and_yield; repeat constructor.
    exact Hr.
Qed.

(** ** X2 and X3: where the paths start *)

Lemma string_app_assoc (x y z : string) : (x ++ y) ++ z = x ++ (y ++ z).
Proof. induction x as [|c x IH]; simpl; congruence. Qed.

Lemma extends_refl (p : string) : extends p p.
Proof.
  exists ""; induction p as [|c p IH]; simpl; congruence.
Qed.

Lemma extends_app (p rest : string) : extends p (p ++ rest).
Proof. now exists rest. Qed.

Lemma extends_trans (p q r : string) :
  extends p q -> extends q r -> extends p r.
Proof.
  intros [x ->] [y ->]; exists (x ++ y); apply string_app_assoc.
Qed.

Lemma extends_empty (p : string) : extends "" p.
Proof. now exists p. Qed.

Lemma seq_prefix_extends pathsep build_path :
  extends build_path (seq_prefix pathsep build_path).
Proof.
  unfold seq_prefix.
  destruct (String.eqb_spec build_path "") as [->|_]; simpl.
  - apply extends_empty.
  - apply extends_app.
Qed.

Lemma map_prefix_extends pathsep build_path :
  extends build_path (map_prefix pathsep build_path).
Proof.
  unfold map_prefix.
  destruct (String.eqb_spec build_path "") as [->|_]; simpl.
  - apply extends_empty.
  - apply extends_app.
Qed.

(** Events whose paths all extend [build_path]. *)
Lemma under_weaken (p q : string) (evs : list Event) :
  extends p q ->
  Forall (fun e => extends q (event_path e)) evs ->
  Forall (fun e => extends p (event_path e)) evs.
Proof.
  intros Hpq; apply Forall_impl; intros e He.
  now apply extends_trans with q.
Qed.

Section Under.

Context {Method : Type}.
Variable search_matches : Method -> string -> Scalar -> bool.
Variable terms : SearchTerms Method.
Variable pathsep : PathSeperators.
Variables search_values search_keys include_aliases : bool.
Variable recurse : Node -> string -> list Event.

Local Notation "'under' p" := (Forall (fun e => extends p (event_path e)))
  (at level 10, p at level 9).

Lemma under_app bp (xs ys : list Event) :
  under bp xs -> under bp ys -> under bp (xs ++ ys).
Proof. intros Hx Hy; apply Forall_app; now split. Qed.

Lemma under_nil bp : under bp [].
Proof. constructor. Qed.

Lemma test_and_yield_under bp r p x :
  extends bp p -> under bp (test_and_yield search_matches terms r p x).
Proof.
  intros Hp; unfold test_and_yield.
  destruct (yields_on search_matches terms x); repeat constructor; exact Hp.
Qed.

Lemma seq_loop_under bp items :
  Forall (fun ele => forall p, under p (recurse ele p)) items ->
  forall seen idx,
    under bp (seq_loop search_matches terms pathsep search_values
                include_aliases recurse bp seen idx items).
Proof.
  induction 1 as [|ele rest Hele _ IH]; intros seen idx; simpl.
  - constructor.
  - unfold seq_body.
    assert (Hvisit : forall rest_of_path,
               under bp
                 match ele with
                 | NScalar s =>
                     if search_values
                     then test_and_yield search_matches terms RElement
                            (bp ++ rest_of_path) s
                     else []
                 | _ => recurse ele (bp ++ rest_of_path)
                 end).
    { intros x; destruct ele as [s| |].
      - destruct search_values; [|constructor].
        apply test_and_yield_under, extends_app.
      - apply under_weaken with (bp ++ x); [apply extends_app|apply Hele].
      - apply under_weaken with (bp ++ x); [apply extends_app|apply Hele]. }
    destruct (node_anchor ele) as [name|];
      [destruct (seen_in name seen); [destruct (negb include_aliases)|]|];
      simpl; auto using under_app, under_nil.
Qed.

Lemma map_loop_under bp entries :
  Forall (fun e => forall p, under p (recurse (snd e) p)) entries ->
  forall seen,
    under bp (map_loop search_matches terms pathsep search_values
                search_keys include_aliases recurse bp seen entries).
Proof.
  induction 1 as [|[[own key] val] rest Hval _ IH]; intros seen; simpl.
  - constructor.
  - destruct (in_pool include_aliases own); auto.
    unfold map_body, key_path.
    assert (Hkey : under bp
                     (if search_keys
                      then test_and_yield search_matches terms RKey
                             (bp ++ key_segment pathsep key) key
                      else [])).
    { destruct search_keys; [|constructor].
      apply test_and_yield_under, extends_app. }
    assert (Hvalue : forall s,
               under bp (test_and_yield search_matches terms RValue
                           (bp ++ key_segment pathsep key) s)).
    { intros s; apply test_and_yield_under, extends_app. }
    simpl in Hval.
    assert (Hrec : under bp (recurse val (bp ++ key_segment pathsep key))).
    { eapply under_weaken; [apply extends_app|apply Hval]. }
    destruct val as [s| |]; simpl; auto using under_app.
    destruct (search_values && negb _); simpl; auto using under_app.
    destruct (anchor s) as [name|];
      [destruct (seen_in name seen); [destruct (negb include_aliases)|]|];
      simpl; auto using under_app.
Qed.

End Under.

Lemma trace_under {Method : Type}
      (search_matches : Method -> string -> Scalar -> bool)
      (terms : SearchTerms Method) (pathsep : PathSeperators)
      (search_values search_keys include_aliases : bool) (data : Node) :
  forall build_path,
    Forall (fun e => extends build_path (event_path e))
           (search_for_paths_trace search_matches terms pathsep
              search_values search_keys include_aliases data build_path).
Proof.
  induction data as [s|a items IH|a entries IH] using Node_ind;
    intros build_path; simpl.
  - constructor.
  - eapply under_weaken; [apply seq_prefix_extends|].
    now apply seq_loop_under.
  - eapply under_weaken; [apply map_prefix_extends|].
    now apply map_loop_under.
Qed.

(** X2: every path a run tests or yields is the [build_path] it was started
    with, with something appended: the results of the scan of a node lie
    under the path of that node. *)
Theorem paths_extend_build_path {Method : Type}
        (search_matches : Method -> string -> Scalar -> bool)
        (terms : SearchTerms Method) (pathsep : PathSeperators)
        (search_values search_keys include_aliases : bool) (data : Node)
        (build_path : string) :
  Forall (fun e => extends build_path (event_path e))
         (search_for_paths_trace search_matches terms pathsep
            search_values search_keys include_aliases data build_path)
  /\ Forall (extends build_path)
            (search_for_paths search_matches terms pathsep search_values
               search_keys include_aliases data build_path).
Proof.
  pose proof (trace_under search_matches terms pathsep search_values
                search_keys include_aliases data build_path) as H.
  split; [exact H|].
  unfold search_for_paths.
  induction H as [|[c|p] evs He _ IH]; simpl; auto.
Qed.

(** X3: with the separator [/], every path of a run started at the root (an
    empty [build_path]) begins with [/]. *)
Theorem fslash_paths_start_with_separator {Method : Type}
        (search_matches : Method -> string -> Scalar -> bool)
        (terms : SearchTerms Method)
        (search_values search_keys include_aliases : bool) (data : Node) :
  Forall (fun e => extends "/" (event_path e))
         (search_for_paths_trace search_matches terms FSLASH search_values
            search_keys include_aliases data "").
Proof.
  destruct data as [s|a items|a entries]; simpl.
  - constructor.
  - eapply under_weaken with (q := "/[");
      [now exists "["|].
    apply seq_loop_under.
    apply Forall_forall; intros ele _ p; apply trace_under.
  - apply map_loop_under.
    apply Forall_forall; intros e _ p; apply trace_under.
Qed.

(** ** X4: entries from a YAML merge key *)

(** X4: when aliases are not asked for, the entries a mapping only has
    through a YAML merge key are neither tested nor recursed into, and the
    entries it owns are scanned as if the others were not there. *)
Theorem merged_entries_need_aliases {Method : Type}
        (search_matches : Method -> string -> Scalar -> bool)
        (terms : SearchTerms Method) (pathsep : PathSeperators)
        (search_values search_keys : bool)
        (a : option string) (entries : list (bool * Scalar * Node))
        (build_path : string) :
  search_for_paths_trace search_matches terms pathsep search_values
    search_keys false (CommentedMap a entries) build_path
  = search_for_paths_trace search_matches terms pathsep search_values
      search_keys false
      (CommentedMap a (filter (fun e => fst (fst e)) entries)) build_path.
Proof.
  cbn [search_for_paths_trace].
  rewrite (map_loop_over_pool search_matches terms pathsep search_values
             search_keys false).
  reflexivity.
Qed.

(** With aliases asked for they are scanned. *)
Example merged_entry_with_and_without_aliases :
  search_for_paths text_equals (mkTerms false tt "x") DOT true false false
    doc_aliases_everywhere "" = ["a"; "c[&A]"]
  /\ search_for_paths text_equals (mkTerms false tt "x") DOT true false true
       doc_aliases_everywhere "" = ["a"; "b"; "m"; "c[&A]"; "c[&A]"].
Proof. split; reflexivity. Qed.

(** ** X5: asking for aliases only adds results *)

Lemma in_yields (p : YAMLPath) (evs : list Event) :
  In p (yields evs) <-> In (Yielded p) evs.
Proof.
  induction evs as [|[c|q] evs IH]; simpl.
  - tauto.
  - rewrite IH; split; [auto|intros [H|H]; [discriminate|exact H]].
  - rewrite IH; split; intros [H|H]; auto; left; congruence.
Qed.

Lemma incl_yields (xs ys : list Event) :
  incl xs ys -> incl (yields xs) (yields ys).
Proof.
  intros H p Hp; apply in_yields; apply H; now apply in_yields.
Qed.

Section AliasesAdd.

Context {Method : Type}.
Variable search_matches : Method -> string -> Scalar -> bool.
Variable terms : SearchTerms Method.
Variable pathsep : PathSeperators.
Variables search_values search_keys : bool.
(** The recursive calls without and with aliases. *)
Variables without within : Node -> string -> list Event.

Lemma seq_loop_aliases_add bp items :
  Forall (fun ele => forall p, incl (without ele p) (within ele p)) items ->
  forall seen seen' idx,
    incl (seq_loop search_matches terms pathsep search_values false
                   without bp seen idx items)
         (seq_loop search_matches terms pathsep search_values true
                   within bp seen' idx items).
Proof.
  induction 1 as [|ele rest Hele _ IH]; intros seen seen' idx; simpl.
  - apply incl_refl.
  - unfold seq_body.
    assert (Hvisit : forall p,
               incl match ele with
                    | NScalar s =>
                        if search_values
                        then test_and_yield search_matches terms RElement p s
                        else []
                    | _ => without ele p
                    end
                    match ele with
                    | NScalar s =>
                        if search_values
                        then test_and_yield search_matches terms RElement p s
                        else []
                    | _ => within ele p
                    end).
    { intros p; destruct ele; auto using incl_refl. }
    destruct (node_anchor ele) as [name|];
      [destruct (seen_in name seen), (seen_in name seen')|];
      simpl; auto using incl_app_app, incl_appr.
Qed.

Lemma map_loop_aliases_add bp entries :
  Forall (fun e => forall p, incl (without (snd e) p) (within (snd e) p))
         entries ->
  forall seen seen',
    incl (map_loop search_matches terms pathsep search_values search_keys
                   false without bp seen entries)
         (map_loop search_matches terms pathsep search_values search_keys
                   true within bp seen' entries).
Proof.
  induction 1 as [|[[own key] val] rest Hval _ IH]; intros seen seen';
    simpl.
  - apply incl_refl.
  - simpl in Hval; destruct own; simpl.
    + unfold map_body.
      destruct val as [s| |]; simpl;
        auto using incl_app_app, incl_refl.
      destruct (search_values && negb _); simpl;
        auto using incl_app_app, incl_refl.
      destruct (anchor s) as [name|];
        [destruct (seen_in name seen), (seen_in name seen')|];
        simpl; auto using incl_app_app, incl_refl, incl_appl.
    + destruct (map_body _ _ _ _ _ _ _ _ _ _ _) as [seen'' evs].
      apply incl_appr, IH.
Qed.

End AliasesAdd.

Lemma trace_aliases_add {Method : Type}
      (search_matches : Method -> string -> Scalar -> bool)
      (terms : SearchTerms Method) (pathsep : PathSeperators)
      (search_values search_keys : bool) (data : Node) :
  forall build_path,
    incl (search_for_paths_trace search_matches terms pathsep search_values
            search_keys false data build_path)
         (search_for_paths_trace search_matches terms pathsep search_values
            search_keys true data build_path).
Proof.
  induction data as [s|a items IH|a entries IH] using Node_ind;
    intros build_path; simpl.
  - apply incl_refl.
  - now apply seq_loop_aliases_add.
  - now apply map_loop_aliases_add.
Qed.

(** X5: asking for aliases only adds results: every candidate tested and
    every path yielded without [include_aliases] is tested, respectively
    yielded, with it. *)
Theorem aliases_only_add {Method : Type}
        (search_matches : Method -> string -> Scalar -> bool)
        (terms : SearchTerms Method) (pathsep : PathSeperators)
        (search_values search_keys : bool) (data : Node)
        (build_path : string) :
  incl (search_for_paths_trace search_matches terms pathsep search_values
          search_keys false data build_path)
       (search_for_paths_trace search_matches terms pathsep search_values
          search_keys true data build_path)
  /\ incl (search_for_paths search_matches terms pathsep search_values
             search_keys false data build_path)
          (search_for_paths search_matches terms pathsep search_values
             search_keys true data build_path).
Proof.
  split; [|apply incl_yields]; apply trace_aliases_add.
Qed.

(** ** X6: searching keys as well loses no path *)

Lemma yields_test_and_yield {Method : Type}
      (search_matches : Method -> string -> Scalar -> bool)
      (terms : SearchTerms Method) r p x :
  yields (test_and_yield search_matches terms r p x)
  = if yields_on search_matches terms x then [p] else [].
Proof.
  unfold test_and_yield; simpl.
  now destruct (yields_on search_matches terms x).
Qed.

Lemma known_names_snoc_r (xs ys : list string) (a : string) :
  (forall x, seen_in x xs = true -> seen_in x ys = true) ->
  forall x, seen_in x xs = true -> seen_in x (ys ++ [a]) = true.
Proof.
  intros H x Hx; rewrite seen_in_app, (H x Hx); reflexivity.
Qed.

Lemma known_names_snoc_both (xs ys : list string) (a : string) :
  (forall x, seen_in x xs = true -> seen_in x ys = true) ->
  forall x, seen_in x (xs ++ [a]) = true -> seen_in x (ys ++ [a]) = true.
Proof.
  intros H x; rewrite !seen_in_app; intros Hx.
  apply orb_true_iff in Hx; destruct Hx as [Hx|Hx].
  - now rewrite (H x Hx).
  - now rewrite Hx, orb_true_r.
Qed.

Lemma known_names_snoc_l (xs ys : list string) (a : string) :
  (forall x, seen_in x xs = true -> seen_in x ys = true) ->
  seen_in a ys = true ->
  forall x, seen_in x (xs ++ [a]) = true -> seen_in x ys = true.
Proof.
  intros H Ha x; rewrite seen_in_app; simpl; rewrite orb_false_r.
  intros Hx; apply orb_true_iff in Hx; destruct Hx as [Hx|Hx]; auto.
  apply String.eqb_eq in Hx; now subst x.
Qed.

Lemma yields_maybe_yield (b : bool) (p : YAMLPath) :
  yields (if b then [Yielded p] else []) = if b then [p] else [].
Proof. now destruct b. Qed.

Section KeysAdd.

Context {Method : Type}.
Variable search_matches : Method -> string -> Scalar -> bool.
Variable terms : SearchTerms Method.
Variable pathsep : PathSeperators.
Variables search_values include_aliases : bool.
(** The recursive calls without and with the search of keys. *)
Variables without within : Node -> string -> list Event.

Lemma seq_loop_keys_add bp items :
  Forall (fun ele => forall p,
              incl (yields (without ele p)) (yields (within ele p))) items ->
  forall seen idx,
    incl (yields (seq_loop search_matches terms pathsep search_values
                           include_aliases without bp seen idx items))
         (yields (seq_loop search_matches terms pathsep search_values
                           include_aliases within bp seen idx items)).
Proof.
  induction 1 as [|ele rest Hele _ IH]; intros seen idx; simpl.
  - apply incl_refl.
  - unfold seq_body.
    assert (Hvisit : forall p,
               incl (yields
                       match ele with
                       | NScalar s =>
                           if search_values
                           then test_and_yield search_matches terms
                                  RElement p s
                           else []
                       | _ => without ele p
                       end)
                    (yields
                       match ele with
                       | NScalar s =>
                           if search_values
                           then test_and_yield search_matches terms
                                  RElement p s
                           else []
                       | _ => within ele p
                       end)).
    { intros p; destruct ele; auto using incl_refl. }
    destruct (node_anchor ele) as [name|];
      [destruct (seen_in name seen); [destruct (negb include_aliases)|]|];
      simpl; rewrite ?yields_app; auto using incl_app_app.
Qed.

Lemma map_loop_keys_add bp entries :
  Forall (fun e => forall p,
              incl (yields (without (snd e) p)) (yields (within (snd e) p)))
         entries ->
  forall seen_without seen_within,
    (forall x, seen_in x seen_within = true ->
               seen_in x seen_without = true) ->
    incl (yields (map_loop search_matches terms pathsep search_values false
                           include_aliases without bp seen_without entries))
         (yields (map_loop search_matches terms pathsep search_values true
                           include_aliases within bp seen_within entries)).
Proof.
  induction 1 as [|[[own key] val] rest Hval _ IH];
    intros seen_f seen_t Hsub; simpl.
  - apply incl_refl.
  - destruct (in_pool include_aliases own); [|now apply IH].
    simpl in Hval; unfold map_body; simpl; rewrite andb_true_r.
    destruct val as [s| |]; simpl.
    + destruct search_values; simpl.
      2:{ rewrite yields_app; apply incl_appr; now apply IH. }
      assert (Hone : forall (p : YAMLPath) (x : Scalar),
                 incl (if yields_on search_matches terms x then [p] else [])
                      [p]).
      { intros p x; destruct (yields_on search_matches terms x);
          [apply incl_refl|apply incl_nil_l]. }
      destruct (yields_on search_matches terms key) eqn:Hk; simpl.
      * destruct (anchor s) as [name|];
          [destruct (seen_in name seen_f); [destruct include_aliases|]|];
          simpl; rewrite ?yields_app, ?yields_maybe_yield, ?Hk;
          first [ apply incl_app_app;
                  [apply Hone
                  |apply IH;
                   first [assumption|apply known_names_snoc_r; assumption]]
                | apply (incl_appr [_]); apply IH; assumption ].
      * destruct (anchor s) as [name|].
        -- destruct (seen_in name seen_t) eqn:Ht,
             (seen_in name seen_f) eqn:Hf.
           ++ destruct include_aliases; simpl;
                rewrite ?yields_app, ?yields_maybe_yield, ?Hk; simpl;
                first [ apply incl_app_app; [apply incl_refl|]
                      | idtac ]; now apply IH.
           ++ rewrite (Hsub name Ht) in Hf; discriminate.
           ++ destruct include_aliases; simpl;
                rewrite ?yields_app, ?yields_maybe_yield, ?Hk; simpl;
                first [ apply incl_app_app; [apply incl_refl|]
                      | apply incl_appr ];
                apply IH; now apply known_names_snoc_l.
           ++ simpl; rewrite ?yields_app, ?yields_maybe_yield, ?Hk; simpl.
              apply incl_app_app; [apply incl_refl|].
              apply IH; now apply known_names_snoc_both.
        -- simpl; rewrite ?yields_app, ?yields_maybe_yield, ?Hk; simpl.
           apply incl_app_app; [apply incl_refl|now apply IH].
    + rewrite !yields_app; apply incl_app_app; [|now apply IH].
      apply incl_appr, Hval.
    + rewrite !yields_app; apply incl_app_app; [|now apply IH].
      apply incl_appr, Hval.
Qed.

End KeysAdd.

Lemma trace_keys_add {Method : Type}
      (search_matches : Method -> string -> Scalar -> bool)
      (terms : SearchTerms Method) (pathsep : PathSeperators)
      (search_values include_aliases : bool) (data : Node) :
  forall build_path,
    incl (yields (search_for_paths_trace search_matches terms pathsep
                    search_values false include_aliases data build_path))
         (yields (search_for_paths_trace search_matches terms pathsep
                    search_values true include_aliases data build_path)).
Proof.
  induction data as [s|a items IH|a entries IH] using Node_ind;
    intros build_path; simpl.
  - apply incl_refl.
  - now apply seq_loop_keys_add.
  - apply map_loop_keys_add; auto.
Qed.

(** X6: searching the keys as well as what was searched loses no path:
    every path yielded without [search_keys] is yielded with it, although
    the value of a pair whose key matched is no longer tested. *)
Theorem keys_only_add {Method : Type}
        (search_matches : Method -> string -> Scalar -> bool)
        (terms : SearchTerms Method) (pathsep : PathSeperators)
        (search_values include_aliases : bool) (data : Node)
        (build_path : string) :
  incl (search_for_paths search_matches terms pathsep search_values false
          include_aliases data build_path)
       (search_for_paths search_matches terms pathsep search_values true
          include_aliases data build_path).
Proof. apply trace_keys_add. Qed.

(** ** X7: documents without anchors *)

Lemma trace_plain_children {Method : Type}
      (search_matches : Method -> string -> Scalar -> bool)
      (terms : SearchTerms Method) (pathsep : PathSeperators)
      (search_values search_keys : bool) (data : Node) :
  plain_children data = true ->
  forall build_path,
    search_for_paths_trace search_matches terms pathsep search_values
      search_keys true data build_path
    = search_for_paths_trace search_matches terms pathsep search_values
        search_keys false data build_path.
Proof.
  induction data as [s|a items IH|a entries IH] using Node_ind;
    intros Hplain build_path; simpl; trivial.
  - simpl in Hplain.
    generalize (seq_prefix pathsep build_path), (@nil string), 0.
    induction IH as [|ele rest Hele _ IHrest]; intros bp seen idx; simpl;
      trivial.
    simpl in Hplain; apply andb_prop in Hplain; destruct Hplain as [He Hr].
    unfold seq_body.
    destruct (node_anchor ele) as [name|]; [discriminate|].
    rewrite (IHrest Hr).
    destruct ele as [s| |]; [reflexivity|now rewrite (Hele He)..].
  - simpl in Hplain.
    generalize (map_prefix pathsep build_path), (@nil string).
    induction IH as [|[[own key] val] rest Hval _ IHrest]; intros bp seen;
      simpl; trivial.
    simpl in Hplain, Hval.
    apply andb_prop in Hplain; destruct Hplain as [He Hr].
    apply andb_prop in He; destruct He as [-> He]; simpl.
    unfold map_body.
    destruct (node_anchor val) as [name|] eqn:Hnone; [discriminate|].
    destruct val as [s| |].
    + simpl in Hnone; rewrite Hnone.
      destruct (search_values && negb _); simpl; now rewrite (IHrest Hr).
    + rewrite (Hval He); cbn iota; now rewrite (IHrest Hr).
    + rewrite (Hval He); cbn iota; now rewrite (IHrest Hr).
Qed.

(** X7: on a document that has no anchors below its root and no entries
    from a YAML merge key, asking for aliases changes nothing: the run
    tests and yields the same, in the same order. *)
Theorem aliases_flag_idle_without_anchors {Method : Type}
        (search_matches : Method -> string -> Scalar -> bool)
        (terms : SearchTerms Method) (pathsep : PathSeperators)
        (search_values search_keys : bool) (data : Node)
        (build_path : string) :
  plain_children data = true ->
  search_for_paths_trace search_matches terms pathsep search_values
    search_keys true data build_path
  = search_for_paths_trace search_matches terms pathsep search_values
      search_keys false data build_path.
Proof. intros H; now apply trace_plain_children. Qed.

Lemma aliases_flag_idle_without_anchors_witness :
  plain_children doc_nested_plain = true
  /\ search_for_paths_trace text_equals (mkTerms false tt "x") DOT true true
       true doc_nested_plain ""
     = search_for_paths_trace text_equals (mkTerms false tt "x") DOT true
         true false doc_nested_plain "".
Proof.
  split; [reflexivity|].
  apply (aliases_flag_idle_without_anchors text_equals
           (mkTerms false tt "x") DOT true true doc_nested_plain "").
  reflexivity.
Defined.

(** ** X8: the elements of a sequence of scalars *)

Lemma seq_loop_index_paths {Method : Type}
      (search_matches : Method -> string -> Scalar -> bool)
      (terms : SearchTerms Method) (pathsep : PathSeperators)
      (include_aliases : bool)
      (recurse : Node -> string -> list Event) (bp : string)
      (items : list Scalar) :
  Forall (fun s => anchor s = None) items ->
  forall seen idx,
    yields (seq_loop search_matches terms pathsep true include_aliases
                     recurse bp seen idx (map NScalar items))
    = index_paths (yields_on search_matches terms) bp idx items.
Proof.
  induction 1 as [|s rest Hs _ IH]; intros seen idx; simpl; trivial.
  unfold seq_body; simpl; rewrite Hs.
  rewrite yields_app, yields_test_and_yield, IH.
  now destruct (yields_on search_matches terms s).
Qed.

(** X8: searched for values, a sequence of scalars without anchors yields,
    in order, the path [[i]] of each element at index [i] (counted from 0)
    on which [matches XOR invert] holds, and nothing else. *)
Theorem scalar_sequence_yields_indices {Method : Type}
        (search_matches : Method -> string -> Scalar -> bool)
        (terms : SearchTerms Method) (pathsep : PathSeperators)
        (search_keys include_aliases : bool) (a : option string)
        (items : list Scalar) (build_path : string) :
  Forall (fun s => anchor s = None) items ->
  search_for_paths search_matches terms pathsep true search_keys
    include_aliases (CommentedSeq a (map NScalar items)) build_path
  = index_paths (yields_on search_matches terms)
      (seq_prefix pathsep build_path) 0 items.
Proof.
  intros H; unfold search_for_paths; simpl.
  now apply seq_loop_index_paths.
Qed.

Lemma scalar_sequence_yields_indices_witness :
  search_for_paths text_equals (mkTerms true tt "20") FSLASH true false
    false doc_numbers ""
  = ["/[0]"; "/[2]"].
Proof.
  apply (scalar_sequence_yields_indices text_equals (mkTerms true tt "20")
           FSLASH false false None [plain "10"; plain "20"; plain "30"] "").
  repeat constructor.
Defined.

(* ================================================================== *)
(** * Facts about the search command *)
(* ================================================================== *)

Section PathsCommandFacts.

Import YamlPathsCommand.

Context {Method : Type}.
Variable env : Env Method.
Variable args : Args.

Lemma printed_app (xs ys : list Output) :
  printed (xs ++ ys) = (printed xs ++ printed ys)%list.
Proof. induction xs as [|[m|line] xs IH]; simpl; congruence. Qed.

Lemma printed_prints (lines : list string) :
  printed (map Print lines) = lines.
Proof. induction lines as [|l lines IH]; simpl; congruence. Qed.

Lemma printed_errors (errors : list Message) :
  printed (map LogError errors) = [].
Proof. induction errors as [|m errors IH]; simpl; trivial. Qed.

Lemma print_results_goes_on yaml_file expression
      (results : list YamlPaths.YAMLPath) :
  forallb (fun result => match str_path env result with
                         | Some _ => true
                         | None => false
                         end) results = true ->
  print_results env args yaml_file expression results
  = (flat_map (fun result =>
                 match format_line env args yaml_file expression result with
                 | Some line => [line]
                 | None => []
                 end) results,
     true).
Proof.
  induction results as [|result rest IH]; simpl; intros Hok; trivial.
  apply andb_prop in Hok; destruct Hok as [Hr Hrest].
  unfold format_line in *.
  destruct (str_path env result) as [rendered|]; [|discriminate].
  now rewrite (IH Hrest).
Qed.

Lemma search_file_goes_on yaml_file yaml_data (expressions : list string) :
  forallb
    (fun expression =>
       match search_terms env expression with
       | Some terms =>
           forallb (fun result => match str_path env result with
                                  | Some _ => true
                                  | None => false
                                  end)
                   (results_of env args terms yaml_data)
       | None => false
       end) expressions = true ->
  search_file env args yaml_file yaml_data expressions
  = (flat_map
       (fun expression =>
          match search_terms env expression with
          | Some terms =>
              flat_map (fun result =>
                          match format_line env args yaml_file expression
                                            result with
                          | Some line => [line]
                          | None => []
                          end)
                       (results_of env args terms yaml_data)
          | None => []
          end) expressions,
     true).
Proof.
  induction expressions as [|expression rest IH]; simpl; intros Hok; trivial.
  apply andb_prop in Hok; destruct Hok as [He Hrest].
  destruct (search_terms env expression) as [terms|]; [|discriminate].
  now rewrite (print_results_goes_on _ _ _ He), (IH Hrest).
Qed.

Lemma files_loop_goes_on (files : list string) :
  forallb (fun f => negb (is_uncaught env args f)) files = true ->
  forall exit_state,
    printed (fst (files_loop env args files exit_state))
    = lines_of_loaded_files env args files
    /\ snd (files_loop env args files exit_state)
       = if existsb (fails_to_parse env) files then 3 else exit_state.
Proof.
  induction files as [|f rest IH]; intros Hok exit_state; simpl in *.
  - split; reflexivity.
  - apply andb_prop in Hok; destruct Hok as [Hf Hrest].
    unfold is_uncaught, fails_to_parse in *.
    destruct (load env f) as [d|e|]; simpl in *; try discriminate.
    + apply negb_true_iff, negb_false_iff in Hf.
      unfold search_raises_nothing in Hf.
      rewrite (search_file_goes_on _ _ _ Hf).
      destruct (IH Hrest exit_state) as [Hp Hs].
      destruct (files_loop env args rest exit_state) as [out st];
        simpl in *.
      now rewrite printed_app, printed_prints, Hp.
    + destruct (IH Hrest 3) as [Hp Hs].
      destruct (files_loop env args rest 3) as [out st]; simpl in *.
      split; [exact Hp|].
      rewrite Hs; now destruct (existsb _ rest).
Qed.

(** X9: when the keys pass validation and nothing is raised that [main]
    does not catch (every file loads or raises one of the loader's three
    parsing errors, every expression gives search terms, every result has
    a text), a file that fails to parse is logged and passed over while the
    others are searched: the lines printed are those of the files that
    load, file after file, each result as [str()] renders it, and the
    command leaves with 3 when some file failed to parse, with 0
    otherwise. *)
Theorem parse_errors_do_not_stop_the_search :
  validation_errors env args = [] ->
  forallb (fun f => negb (is_uncaught env args f)) (yaml_files args)
  = true ->
  printed (fst (main env args))
  = lines_of_loaded_files env args (yaml_files args)
  /\ snd (main env args)
     = if existsb (fails_to_parse env) (yaml_files args) then 3 else 0.
Proof.
  intros Hv Hok; unfold main; rewrite Hv.
  now apply files_loop_goes_on.
Qed.

(** X10: [validateargs] lets through exactly the arguments whose EYAML keys
    are both unset, or both set and both readable files; otherwise the
    command leaves with 1 and prints nothing. *)
Theorem eyaml_keys_come_in_readable_pairs :
  let set_private := YamlMerge.is_set (privatekey args) in
  let set_public := YamlMerge.is_set (publickey args) in
  (validation_errors env args = [] <->
   (set_private = false /\ set_public = false)
   \/ (set_private = true /\ set_public = true
       /\ readable_file env (YamlMerge.or_default (privatekey args)) = true
       /\ readable_file env (YamlMerge.or_default (publickey args)) = true))
  /\ (validation_errors env args <> [] ->
      snd (main env args) = 1 /\ printed (fst (main env args)) = []).
Proof.
  intros set_private set_public; split.
  - unfold validation_errors; fold set_private set_public.
    destruct set_private, set_public; simpl;
      destruct (readable_file env (YamlMerge.or_default (privatekey args))),
        (readable_file env (YamlMerge.or_default (publickey args)));
      simpl; split; intros H; try discriminate; auto;
      destruct H as [[? ?]|(? & ? & ? & ?)]; discriminate.
  - intros Hv; unfold main.
    destruct (validation_errors env args) as [|m errors];
      [now elim Hv|].
    split; [reflexivity|apply (printed_errors (m :: errors))].
Qed.

End PathsCommandFacts.

Lemma parse_errors_do_not_stop_the_search_witness :
  YamlPathsCommand.printed (fst (YamlPathsCommand.main YamlPathsCommand.sample_env
                  (YamlPathsCommand.sample_args
                     ["bad.yaml"; "good.yaml"] None)))
  = ["good.yaml: [1]"]
  /\ snd (YamlPathsCommand.main YamlPathsCommand.sample_env
            (YamlPathsCommand.sample_args
               ["bad.yaml"; "good.yaml"] None)) = 3.
Proof.
  apply (parse_errors_do_not_stop_the_search YamlPathsCommand.sample_env
           (YamlPathsCommand.sample_args ["bad.yaml"; "good.yaml"] None));
    reflexivity.
Defined.

Lemma eyaml_keys_come_in_readable_pairs_witness :
  snd (YamlPathsCommand.main YamlPathsCommand.sample_env
         (YamlPathsCommand.sample_args ["good.yaml"] (Some "key.pem"))) = 1
  /\ YamlPathsCommand.printed
       (fst (YamlPathsCommand.main YamlPathsCommand.sample_env
               (YamlPathsCommand.sample_args ["good.yaml"]
                  (Some "key.pem")))) = [].
Proof.
  apply (proj2 (eyaml_keys_come_in_readable_pairs
                  YamlPathsCommand.sample_env
                  (YamlPathsCommand.sample_args ["good.yaml"]
                     (Some "key.pem")))).
  discriminate.
Defined.

(** A result whose path has no text ends the run with the status 1 of an
    exception that nothing catches: what was printed before stays, and the
    files after it are not searched. *)
Example unprintable_result_ends_the_run :
  YamlPathsCommand.main YamlPathsCommand.sample_env
    (YamlPathsCommand.sample_args
       ["good.yaml"; "odd.yaml"; "good.yaml"] None)
  = ([YamlPathsCommand.Print "good.yaml: [1]"], 1).
Proof. reflexivity. Qed.

(* ================================================================== *)
(** * More about the merge command *)
(* ================================================================== *)

Section MoreMergeFacts.

Import YamlMerge MergeProperties.

Context {Doc Merger : Type}.
Variable env : Env Doc Merger.
Variable args : Args.

Lemma loads_app (l1 l2 : list (Action Doc Merger)) :
  loads (l1 ++ l2) = (loads l1 ++ loads l2)%list.
Proof. induction l1 as [|[] l1 IH]; simpl; congruence. Qed.

Lemma merged_data_app (l1 l2 : list (Action Doc Merger)) :
  merged_data (l1 ++ l2) = (merged_data l1 ++ merged_data l2)%list.
Proof. induction l1 as [|[] l1 IH]; simpl; congruence. Qed.

Lemma merge_all_app merger (xs ys : list (YamlData Doc)) :
  merge_all env merger (xs ++ ys)
  = merge_all env (merge_all env merger xs) ys.
Proof. apply fold_left_app. Qed.

(** ** [process_multidoc] *)

Lemma multidoc_loop_facts docs :
  forall merger doc_number exit_state,
  exists log merger' st,
    multidoc_loop env merger docs doc_number exit_state
    = (log, Return (merger', st))
    /\ loads log = []
    /\ map fst (merges log) = present_parts docs doc_number
    /\ merger' = merge_all env merger (merged_data log)
    /\ ((forallb went_well (merges log) = true /\ st = exit_state)
        \/ (forallb went_well (merges log) = false
            /\ (st = 6 \/ st = 7))
        \/ (exit_state = 6 \/ exit_state = 7) /\ st = exit_state).
Proof.
  induction docs as [|[d|] rest IH]; intros merger doc_number exit_state;
    simpl.
  - do 3 eexists; split; [reflexivity|]; simpl; auto 8.
  - destruct (merge_with env merger (OneDoc d)) as [merger' raised] eqn:E.
    assert (Hm : merger' = fst (merge_with env merger (OneDoc d)))
      by now rewrite E.
    destruct raised as [[]|].
    + destruct (IH merger' (S doc_number) 6)
        as (log & m & st & -> & Hl & Hp & Hm' & Hst).
      do 3 eexists; split; [reflexivity|]; simpl.
      rewrite Hl, Hp; repeat split; trivial.
      * unfold merge_all in *; simpl; now rewrite <- Hm.
      * right; left; split; trivial.
        destruct Hst as [[_ ->]|[[_ H]|[_ ->]]]; auto.
    + destruct (IH merger' (S doc_number) 7)
        as (log & m & st & -> & Hl & Hp & Hm' & Hst).
      do 3 eexists; split; [reflexivity|]; simpl.
      rewrite Hl, Hp; repeat split; trivial.
      * unfold merge_all in *; simpl; now rewrite <- Hm.
      * right; left; split; trivial.
        destruct Hst as [[_ ->]|[[_ H]|[_ ->]]]; auto.
    + destruct (IH merger' (S doc_number) exit_state)
        as (log & m & st & -> & Hl & Hp & Hm' & Hst).
      do 3 eexists; split; [reflexivity|]; simpl.
      rewrite Hl, Hp; repeat split; trivial.
      unfold merge_all in *; simpl; now rewrite <- Hm.
  - apply IH.
Qed.

(** X11: [process_multidoc] hands every document of the stream that is not
    [None] to [merge_with], once and in order, under the number of its
    place among the documents, whatever the documents before it raised;
    and it loads nothing. *)
Theorem process_multidoc_attempts_every_document merger docs :
  map fst (merges (fst (process_multidoc env merger docs)))
  = present_parts docs 0
  /\ loads (fst (process_multidoc env merger docs)) = [].
Proof.
  unfold process_multidoc.
  destruct (multidoc_loop_facts docs merger 0 0)
    as (log & m & st & -> & Hl & Hp & _); simpl; auto.
Qed.

(** X12: [process_multidoc] returns 0 exactly when no merge raised, and 6 or
    7 otherwise; the merger it leaves is the one [merge_with] was called
    on for each document that is not [None], in order. *)
Theorem process_multidoc_status merger docs :
  exists log merger' st,
    process_multidoc env merger docs = (log, Return (merger', st))
    /\ (st = 0 <-> forallb went_well (merges log) = true)
    /\ (st = 0 \/ st = 6 \/ st = 7)
    /\ merger' = merge_all env merger (merged_data log).
Proof.
  unfold process_multidoc.
  destruct (multidoc_loop_facts docs merger 0 0)
    as (log & m & st & -> & _ & _ & Hm & Hst).
  do 3 eexists; split; [reflexivity|].
  destruct Hst as [[H ->]|[[H Hs]|[[Hs|Hs] _]]]; try discriminate.
  - repeat split; auto.
  - repeat split; auto.
    + intros ->; destruct Hs; discriminate.
    + rewrite H; discriminate.
Qed.

(** ** The loop over the right-hand files and the end of [main] *)

Lemma process_rhs_facts merger rhs_file :
  exists log merger' st,
    process_rhs env merger rhs_file = (log, Return (merger', st))
    /\ merger' = merge_all env merger (merged_data log)
    /\ ((st = 0 /\ loads log = [rhs_file]
         /\ merges log = [(RhsSource rhs_file, None)])
        \/ (st = 2 /\ rhs_file <> "-" /\ loads log = []
            /\ merges log = [])
        \/ (st = 3 /\ loads log = [rhs_file] /\ merges log = [])
        \/ ((st = 4 \/ st = 5) /\ loads log = [rhs_file]
            /\ exists e, merges log = [(RhsSource rhs_file, Some e)])).
Proof.
  unfold process_rhs.
  destruct (String.eqb_spec rhs_file "-") as [->|Hne]; simpl.
  - destruct (get_yaml_data env "-" true) as [data|]; simpl.
    + destruct (merge_with env merger data) as [merger' raised] eqn:E.
      assert (Hm : merger' = fst (merge_with env merger data))
        by now rewrite E.
      destruct raised as [[]|]; do 3 eexists;
        (split; [reflexivity|split; [exact Hm|]]); simpl; eauto 12.
    + do 3 eexists; split; [reflexivity|split; [reflexivity|]]; auto 8.
  - destruct (isfile env rhs_file); simpl.
    + destruct (get_yaml_data env rhs_file true) as [data|]; simpl.
      * destruct (merge_with env merger data) as [merger' raised] eqn:E.
        assert (Hm : merger' = fst (merge_with env merger data))
          by now rewrite E.
        destruct raised as [[]|]; do 3 eexists;
          (split; [reflexivity|split; [exact Hm|]]); simpl; eauto 12.
      * do 3 eexists; split; [reflexivity|split; [reflexivity|]]; auto 8.
    + do 3 eexists; split; [reflexivity|split; [reflexivity|]]; auto 8.
Qed.

Lemma stops_after_successes
      (xs ys : list (Origin * option MergeError)) :
  forallb went_well xs = true ->
  stops_at_first_failure (xs ++ ys) = stops_at_first_failure ys.
Proof.
  induction xs as [|[origin [e|]] xs IH]; simpl; intros H; trivial.
  - discriminate.
  - now apply IH.
Qed.

Lemma rhs_loop_facts files :
  forall merger consumed_stdin exit_state,
  exists log merger' consumed' st,
    rhs_loop env merger files consumed_stdin exit_state
    = (log, Return (merger', consumed', st))
    /\ merger' = merge_all env merger (merged_data log)
    /\ stops_at_first_failure (merges log) = true
    /\ ((st = exit_state /\ loads log = files
         /\ forallb went_well (merges log) = true
         /\ map fst (merges log) = map RhsSource files
         /\ consumed'
            = consumed_stdin || existsb is_pseudofile files)
        \/ (st <> 0 /\ In st [2; 3; 4; 5]
            /\ exists rest, files = (loads log ++ rest)%list)).
Proof.
  induction files as [|rhs_file rest IH];
    intros merger consumed_stdin exit_state; simpl.
  - do 4 eexists; split; [reflexivity|]; simpl.
    rewrite orb_false_r; auto 8.
  - destruct (process_rhs_facts merger rhs_file)
      as (log & merger' & st & -> & Hm & Hst).
    simpl.
    destruct Hst as [(-> & Hl & Hms)
                    |[(-> & Hne & Hl & Hms)
                     |[(-> & Hl & Hms)
                      |(Hs & Hl & e & Hms)]]]; simpl.
    + destruct (IH merger' (consumed_stdin || is_pseudofile rhs_file)
                   exit_state)
        as (log' & m & c & st' & -> & Hm' & Hstop & Hcases).
      do 4 eexists; split; [reflexivity|].
      rewrite merged_data_app, merge_all_app, <- Hm, <- Hm', merges_app,
        loads_app, Hms, Hl; simpl.
      repeat split; trivial.
      destruct Hcases
        as [(-> & Hl' & Hok & Hor & ->)|(Hne & Hin & rest' & ->)].
      * left; rewrite Hl', Hok, Hor, orb_assoc; auto.
      * right; split; trivial; split; trivial; now exists rest'.
    + do 4 eexists; split; [reflexivity|].
      rewrite app_nil_r, Hms, Hl; repeat split; trivial.
      right; split; [discriminate|split; [simpl; auto|]].
      now exists (rhs_file :: rest).
    + do 4 eexists; split; [reflexivity|].
      rewrite app_nil_r, Hms, Hl; repeat split; trivial.
      right; split; [discriminate|split; [simpl; auto|]].
      now exists rest.
    + assert (Hnz : (st =? 0)%nat = false)
        by (destruct Hs as [->| ->]; reflexivity).
      rewrite Hnz; simpl.
      do 4 eexists; split; [reflexivity|].
      rewrite app_nil_r, Hms, Hl; repeat split; trivial.
      right; split; [destruct Hs as [->| ->]; discriminate|].
      split; [destruct Hs as [->| ->]; simpl; auto|now exists rest].
Qed.

(** ** The shape of a run *)

Lemma main_finish_shape merger consumed_stdin exit_state :
  exists log merger' st,
    (if reads_waiting_stdin env args consumed_stdin exit_state
     then process_rhs env merger "-"
     else ret (merger, exit_state)) = (log, Return (merger', st))
    /\ main_finish env args merger consumed_stdin exit_state
       = ((log ++ if (st =? 0)%nat
                  then [Dump (dump_target args)
                             (prepare_for_dump env merger')]
                  else [])%list,
          SysExit st).
Proof.
  unfold main_finish, reads_waiting_stdin, dump_target.
  destruct ((exit_state =? 0)%nat && negb consumed_stdin
            && negb (nostdin args) && negb (stdin_isatty env)).
  - destruct (process_rhs_facts merger "-")
      as (log & merger' & st & -> & _).
    do 3 eexists; split; [reflexivity|].
    simpl; destruct (st =? 0)%nat; simpl; now rewrite ?app_nil_r.
  - do 3 eexists; split; [reflexivity|].
    simpl; destruct (exit_state =? 0)%nat; reflexivity.
Qed.

(** A run is one of: a failed validation; a first file with nothing in it;
    a multi-document first file some further document of which failed; or
    the further documents, the right-hand files, the waiting STDIN document
    if any, and the dump if all went well. *)
Lemma main_shape :
  (validation_passes env args = false
   /\ exit_status env args = 1
   /\ forallb is_log_error (actions env args) = true)
  \/ exists prime_file fileiterator,
      rhs_files args = prime_file :: fileiterator
      /\ validation_passes env args = true
      /\ let loaded :=
           GetYamlData prime_file false
                       (get_yaml_data env prime_file false) in
         (first_document env args = None
          /\ actions env args
             = [loaded; LogCritical (NothingToMergeInto prime_file)]
          /\ exit_status env args = 1)
         \/ exists d log1 merger1 st1,
             first_document env args = Some d
             /\ (if prime_is_multidoc env args
                 then process_multidoc env (new_merger env d)
                        (prime_rest env args)
                 else ret (new_merger env d, 0))
                = (log1, Return (merger1, st1))
             /\ ((prime_is_multidoc env args = true /\ st1 <> 0
                  /\ actions env args = loaded :: log1
                  /\ exit_status env args = st1)
                 \/ exists log2 merger2 consumed2 st2 log3 merger3 st3,
                     st1 = 0
                     /\ rhs_loop env merger1 fileiterator
                                 (is_pseudofile prime_file) 0
                        = (log2, Return (merger2, consumed2, st2))
                     /\ (if reads_waiting_stdin env args consumed2 st2
                         then process_rhs env merger2 "-"
                         else ret (merger2, st2))
                        = (log3, Return (merger3, st3))
                     /\ actions env args
                        = (loaded :: log1 ++ log2 ++ log3
                           ++ if (st3 =? 0)%nat
                              then [Dump (dump_target args)
                                         (prepare_for_dump env merger3)]
                              else [])%list
                     /\ exit_status env args = st3).
Proof.
  unfold validation_passes.
  destruct (too_few_files env args || many_pseudofiles args
            || config_unreadable env args || output_exists env args)
    eqn:Hv; simpl.
  { left; destruct (main_when_validation_fails env args Hv)
      as (He & Hl & _); auto. }
  right.
  unfold exit_status, actions, main, first_document, prime_is_multidoc,
    prime_rest.
  rewrite (validateargs_passes env args Hv); simpl.
  destruct (rhs_files args) as [|prime_file fileiterator] eqn:Hfiles.
  { unfold too_few_files in Hv; rewrite Hfiles in Hv; discriminate Hv. }
  exists prime_file, fileiterator; split; [reflexivity|split; trivial].
  simpl.
  assert (Hmerge :
            forall d multi rest,
              let run := main_merge env args (new_merger env d) multi rest
                           fileiterator (is_pseudofile prime_file) in
              exists log1 merger1 st1,
                (if multi
                 then process_multidoc env (new_merger env d) rest
                 else ret (new_merger env d, 0))
                = (log1, Return (merger1, st1))
                /\ ((multi = true /\ st1 <> 0
                     /\ run = (log1, SysExit st1))
                    \/ exists log2 merger2 consumed2 st2 log3 merger3 st3,
                        st1 = 0
                        /\ rhs_loop env merger1 fileiterator
                                    (is_pseudofile prime_file) 0
                           = (log2, Return (merger2, consumed2, st2))
                        /\ (if reads_waiting_stdin env args consumed2 st2
                            then process_rhs env merger2 "-"
                            else ret (merger2, st2))
                           = (log3, Return (merger3, st3))
                        /\ run
                           = ((log1 ++ log2 ++ log3
                               ++ if (st3 =? 0)%nat
                                  then [Dump (dump_target args)
                                             (prepare_for_dump env
                                                merger3)]
                                  else [])%list,
                              SysExit st3))).
  { intros d multi rest run; unfold run, main_merge, process_multidoc.
    assert (Hrest : forall merger1,
               exists log2 merger2 consumed2 st2 log3 merger3 st3,
                 rhs_loop env merger1 fileiterator
                          (is_pseudofile prime_file) 0
                 = (log2, Return (merger2, consumed2, st2))
                 /\ (if reads_waiting_stdin env args consumed2 st2
                     then process_rhs env merger2 "-"
                     else ret (merger2, st2))
                    = (log3, Return (merger3, st3))
                 /\ (r <- rhs_loop env merger1 fileiterator
                                   (is_pseudofile prime_file) 0 ;;
                     let '(merger2, consumed2, exit_state) := r in
                     main_finish env args merger2 consumed2 exit_state)%run
                    = ((log2 ++ log3
                        ++ if (st3 =? 0)%nat
                           then [Dump (dump_target args)
                                      (prepare_for_dump env merger3)]
                           else [])%list,
                       SysExit st3)).
    { intros merger1.
      destruct (rhs_loop_facts fileiterator merger1
                  (is_pseudofile prime_file) 0)
        as (log2 & m2 & c2 & st2 & E2 & _).
      destruct (main_finish_shape m2 c2 st2)
        as (log3 & m3 & st3 & E3 & Ef).
      exists log2, m2, c2, st2, log3, m3, st3.
      split; [exact E2|split; [exact E3|]].
      rewrite E2; simpl; rewrite Ef; reflexivity. }
    destruct multi.
    - destruct (multidoc_loop_facts rest (new_merger env d) 0 0)
        as (log1 & m1 & st1 & E1 & _).
      exists log1, m1, st1; split; [exact E1|].
      rewrite E1; simpl.
      destruct st1 as [|st1]; simpl.
      + right.
        destruct (Hrest m1)
          as (log2 & m2 & c2 & st2 & log3 & m3 & st3 & E2 & E3 & Er).
        exists log2, m2, c2, st2, log3, m3, st3.
        repeat split; trivial.
        now rewrite Er.
      + left; repeat split; [discriminate|now rewrite app_nil_r].
    - exists [], (new_merger env d), 0; split; [reflexivity|].
      right; simpl.
      destruct (Hrest (new_merger env d))
        as (log2 & m2 & c2 & st2 & log3 & m3 & st3 & E2 & E3 & Er).
      exists log2, m2, c2, st2, log3, m3, st3.
      repeat split; trivial.
      now rewrite Er. }
  destruct (get_yaml_data env prime_file false) as [[d|docs]|] eqn:Hprime.
  - right; exists d.
    destruct (Hmerge d false [])
      as (log1 & m1 & st1 & E1 & [(Hm & _)|Hrest]); [discriminate|].
    destruct Hrest
      as (log2 & m2 & c2 & st2 & log3 & m3 & st3 & -> & E2 & E3 & Er).
    exists log1, m1, 0; split; [reflexivity|split; [exact E1|]].
    right; exists log2, m2, c2, st2, log3, m3, st3.
    rewrite Er; simpl; auto 8.
  - destruct (next_doc docs) as [d|].
    + right; exists d.
      destruct (Hmerge d true (tl docs))
        as (log1 & m1 & st1 & E1 & [(_ & Hnz & Er)|Hrest]).
      * exists log1, m1, st1; split; [reflexivity|split; [exact E1|]].
        left; rewrite Er; simpl; auto.
      * destruct Hrest
          as (log2 & m2 & c2 & st2 & log3 & m3 & st3 & -> & E2 & E3 & Er).
        exists log1, m1, 0; split; [reflexivity|split; [exact E1|]].
        right; exists log2, m2, c2, st2, log3, m3, st3.
        rewrite Er; simpl; auto 8.
    + left; auto.
  - left; auto.
Qed.

(** ** What the parts of a run load and merge *)

Lemma errors_load_nothing (log : list (Action Doc Merger)) :
  forallb is_log_error log = true ->
  loads log = [] /\ merges log = [].
Proof.
  induction log as [|[] log IH]; simpl; intros H; try discriminate; auto.
Qed.

Lemma first_part_facts d log1 merger1 st1 :
  (if prime_is_multidoc env args
   then process_multidoc env (new_merger env d) (prime_rest env args)
   else ret (new_merger env d, 0)) = (log1, Return (merger1, st1)) ->
  loads log1 = []
  /\ merger1 = merge_all env (new_merger env d) (merged_data log1)
  /\ (st1 = 0 \/ st1 = 6 \/ st1 = 7)
  /\ (st1 = 0 -> forallb went_well (merges log1) = true)
  /\ map fst (merges log1) = present_parts (prime_rest env args) 0.
Proof.
  unfold prime_is_multidoc, prime_rest.
  destruct (rhs_files args) as [|prime_file fileiterator];
    [intros E; injection E as <- <- <-; simpl; auto 6|].
  destruct (get_yaml_data env prime_file false) as [[d0|docs]|];
    try (intros E; injection E as <- <- <-; simpl; auto 6).
  - unfold process_multidoc.
    destruct (multidoc_loop_facts (tl docs)
                (new_merger env d) 0 0)
      as (log & m & st & -> & Hl & Hp & Hm & Hst).
    intros E; injection E as <- <- <-.
    repeat split; trivial.
    + destruct Hst as [[_ ->]|[[_ Hs]|[[Hs|Hs] _]]];
        try discriminate; auto.
    + intros ->.
      destruct Hst as [[H _]|[[_ [Hs|Hs]]|[[Hs|Hs] _]]];
        try discriminate; trivial.
Qed.

Lemma reads_waiting_stdin_true consumed st :
  reads_waiting_stdin env args consumed st = true ->
  st = 0 /\ consumed = false
  /\ nostdin args = false /\ stdin_isatty env = false.
Proof.
  unfold reads_waiting_stdin.
  destruct (Nat.eqb_spec st 0), consumed, (nostdin args),
    (stdin_isatty env); simpl; intros H; try discriminate; auto.
Qed.

Lemma waiting_stdin_facts merger consumed st log3 merger3 st3 :
  (if reads_waiting_stdin env args consumed st
   then process_rhs env merger "-" else ret (merger, st))
  = (log3, Return (merger3, st3)) ->
  merger3 = merge_all env merger (merged_data log3)
  /\ ((reads_waiting_stdin env args consumed st = false
       /\ log3 = [] /\ st3 = st)
      \/ (reads_waiting_stdin env args consumed st = true
          /\ loads log3 = ["-"]
          /\ List.length (merges log3) <= 1
          /\ In st3 [0; 3; 4; 5]
          /\ (st3 = 0 -> merges log3 = [(RhsSource "-", None)]))).
Proof.
  destruct (reads_waiting_stdin env args consumed st) eqn:Hr.
  - destruct (process_rhs_facts merger "-")
      as (log & m & s & -> & Hm & Hst).
    intros E; injection E as <- <- <-.
    split; [exact Hm|right].
    destruct Hst as [(-> & Hl & Hms)
                    |[(-> & Hne & _)
                     |[(-> & Hl & Hms)
                      |(Hs & Hl & e & Hms)]]].
    + rewrite Hl, Hms; simpl; auto 10.
    + now destruct Hne.
    + rewrite Hl, Hms; simpl; repeat split; auto; discriminate.
    + rewrite Hl, Hms; simpl; repeat split; auto.
      * destruct Hs as [->| ->]; auto.
      * destruct Hs as [->| ->]; discriminate.
  - intros E; injection E as <- <- <-.
    split; [reflexivity|left; auto].
Qed.

Lemma no_match_count {A : Type} (f : A -> bool) (l : list A) :
  (List.length (filter f l) =? 0)%nat = negb (existsb f l).
Proof.
  induction l as [|x l IH]; simpl; trivial.
  destruct (f x); simpl; trivial.
Qed.

Lemma implied_stdin_is_waiting prime_file fileiterator :
  rhs_files args = prime_file :: fileiterator ->
  implied_stdin env args
  = if reads_waiting_stdin env args
         (is_pseudofile prime_file || existsb is_pseudofile fileiterator)
         0
    then 1 else 0.
Proof.
  intros Hf; unfold implied_stdin, reads_waiting_stdin, pseudofile_count.
  rewrite no_match_count, Hf; simpl.
  destruct (is_pseudofile prime_file || existsb is_pseudofile fileiterator),
    (nostdin args), (stdin_isatty env); reflexivity.
Qed.

Lemma short_stops (ms : list (Origin * option MergeError)) :
  List.length ms <= 1 -> stops_at_first_failure ms = true.
Proof.
  destruct ms as [|[o [e|]] [|m ms]]; simpl; trivial; lia.
Qed.

(** The right-hand files and the waiting STDIN document. *)
Lemma complete_run_facts prime_file fileiterator merger1
      log2 merger2 consumed2 st2 log3 merger3 st3 :
  rhs_files args = prime_file :: fileiterator ->
  rhs_loop env merger1 fileiterator (is_pseudofile prime_file) 0
  = (log2, Return (merger2, consumed2, st2)) ->
  (if reads_waiting_stdin env args consumed2 st2
   then process_rhs env merger2 "-" else ret (merger2, st2))
  = (log3, Return (merger3, st3)) ->
  merger3 = merge_all env merger1 (merged_data log2 ++ merged_data log3)
  /\ stops_at_first_failure (merges log2 ++ merges log3) = true
  /\ In st3 [0; 2; 3; 4; 5]
  /\ (exists rest,
         (fileiterator ++ repeat "-" (implied_stdin env args))%list
         = ((loads log2 ++ loads log3) ++ rest)%list)
  /\ (st3 = 0 ->
      (loads log2 ++ loads log3)%list
      = (fileiterator ++ repeat "-" (implied_stdin env args))%list
      /\ forallb went_well (merges log2 ++ merges log3) = true
      /\ map fst (merges log2 ++ merges log3)
         = map RhsSource
               (fileiterator ++ repeat "-" (implied_stdin env args))).
Proof.
  intros Hf E2 E3.
  destruct (rhs_loop_facts fileiterator merger1
              (is_pseudofile prime_file) 0)
    as (log & m & c & st & E & Hm2 & Hstop & Hcases).
  rewrite E in E2; injection E2 as -> -> -> ->.
  destruct (waiting_stdin_facts _ _ _ _ _ _ E3) as (Hm3 & H3).
  split; [now rewrite merge_all_app, <- Hm2|].
  rewrite (implied_stdin_is_waiting _ _ Hf).
  destruct Hcases
    as [(-> & Hl & Hok & Hor & ->)|(Hnz & Hin & rest & ->)].
  - destruct H3 as [(-> & -> & ->)|(-> & Hl3 & Hlen & Hin3 & Hok3)].
    + simpl; rewrite !app_nil_r, Hl.
      repeat split; auto.
      exists []; now rewrite app_nil_r.
    + rewrite Hl, Hl3; simpl.
      split; [rewrite (stops_after_successes _ _ Hok);
              now apply short_stops|].
      split; [simpl in Hin3; intuition|].
      split; [exists []; now rewrite app_nil_r|].
      intros H0; split; trivial.
      rewrite forallb_app, Hok, map_app, Hor, (Hok3 H0), map_app; auto.
  - assert (Hr : reads_waiting_stdin env args consumed2 st2 = false).
    { destruct (reads_waiting_stdin env args consumed2 st2) eqn:Hr;
        trivial.
      now destruct (reads_waiting_stdin_true _ _ Hr) as (-> & _). }
    rewrite Hr in H3.
    destruct H3 as [(_ & -> & ->)|(H & _)]; [|discriminate].
    simpl; rewrite !app_nil_r.
    split; [exact Hstop|].
    split; [simpl in Hin; intuition|].
    split; [eexists; rewrite <- app_assoc; reflexivity|].
    intros ->; now destruct Hnz.
Qed.

(** ** What a run does, all in all *)

Lemma run_facts :
  (validation_passes env args = false
   /\ exit_status env args = 1
   /\ forallb is_log_error (actions env args) = true)
  \/ exists prime_file fileiterator,
      rhs_files args = prime_file :: fileiterator
      /\ validation_passes env args = true
      /\ ((first_document env args = None
           /\ exit_status env args = 1
           /\ actions env args
              = [GetYamlData prime_file false
                             (get_yaml_data env prime_file false);
                 LogCritical (NothingToMergeInto prime_file)])
          \/ exists d body,
              first_document env args = Some d
              /\ actions env args
                 = (body ++ if (exit_status env args =? 0)%nat
                            then [Dump (dump_target args)
                                       (prepare_for_dump env
                                          (merge_all env (new_merger env d)
                                             (merged_data body)))]
                            else [])%list
              /\ ((prime_is_multidoc env args = true
                   /\ (exit_status env args = 6
                       \/ exit_status env args = 7)
                   /\ loads body = [prime_file]
                   /\ map fst (merges body)
                      = present_parts (prime_rest env args) 0)
                  \/ (In (exit_status env args) [0; 2; 3; 4; 5]
                      /\ stops_at_first_failure (merges body) = true
                      /\ (exists rest,
                             (rhs_files args
                              ++ repeat "-" (implied_stdin env args))%list
                             = (loads body ++ rest)%list)
                      /\ (exit_status env args = 0 ->
                          loads body
                          = (rhs_files args
                             ++ repeat "-" (implied_stdin env args))%list
                          /\ forallb went_well (merges body) = true
                          /\ map fst (merges body)
                             = (present_parts (prime_rest env args) 0
                                ++ map RhsSource
                                     (fileiterator
                                      ++ repeat "-"
                                           (implied_stdin env args)))%list
                         )))).
Proof.
  destruct main_shape
    as [A|(prime_file & fileiterator & Hf & Hv
           & [(Hd & Ha & He)
             |(d & log1 & m1 & st1 & Hd & E1 & HCD)])];
    [now left|right; exists prime_file, fileiterator..].
  { split; [exact Hf|split; [exact Hv|left; auto]]. }
  split; [exact Hf|split; [exact Hv|right]].
  destruct (first_part_facts _ _ _ _ E1)
    as (Hl1 & Hm1 & Hst1 & Hok1 & Hp1).
  destruct HCD as [(Hmulti & Hnz & Ha & He)
                  |(log2 & m2 & c2 & st2 & log3 & m3 & st3
                    & -> & E2 & E3 & Ha & He)].
  - exists d, (GetYamlData prime_file false
                 (get_yaml_data env prime_file false) :: log1).
    split; [exact Hd|].
    rewrite He, Ha.
    destruct st1 as [|n]; [now destruct Hnz|]; simpl.
    rewrite app_nil_r, Hl1; split; [reflexivity|left].
    repeat split; trivial.
    destruct Hst1 as [H|H]; [discriminate|exact H].
  - exists d, (GetYamlData prime_file false
                 (get_yaml_data env prime_file false)
               :: log1 ++ log2 ++ log3)%list.
    split; [exact Hd|].
    destruct (complete_run_facts _ _ _ _ _ _ _ _ _ _ Hf E2 E3)
      as (Hm3 & Hstop & Hin & Hpre & Hall).
    rewrite He, Ha, Hf; simpl.
    rewrite !merged_data_app, !loads_app, !merges_app, Hl1; simpl.
    split.
    { rewrite <- !app_assoc; do 4 f_equal.
      destruct (st3 =? 0)%nat; trivial.
      now rewrite merge_all_app, <- Hm1, <- Hm3. }
    right; split; [exact Hin|].
    specialize (Hok1 eq_refl).
    split; [now rewrite (stops_after_successes _ _ Hok1)|].
    split.
    { destruct Hpre as (rest & ->); exists rest; reflexivity. }
    intros H0; destruct (Hall H0) as (-> & Hok & Hor).
    now rewrite forallb_app, Hok1, map_app, Hp1, Hor.
Qed.

Lemma loads_before_dump (body : list (Action Doc Merger)) (b : bool)
      target data :
  loads (body ++ if b then [Dump target data] else []) = loads body
  /\ merges (body ++ if b then [Dump target data] else []) = merges body
  /\ merged_data (body ++ if b then [Dump target data] else [])
     = merged_data body.
Proof.
  rewrite loads_app, merges_app, merged_data_app.
  destruct b; simpl; now rewrite !app_nil_r.
Qed.

Lemma run_loads_in_order :
  exists rest,
    (rhs_files args ++ repeat "-" (implied_stdin env args))%list
    = (loads (actions env args) ++ rest)%list.
Proof.
  destruct run_facts
    as [(_ & _ & Hl)
       |(prime_file & fileiterator & Hf & _
         & [(_ & _ & ->)
           |(d & body & _ & -> & [(_ & _ & Hl & _)|(_ & _ & Hpre & _)])])].
  - destruct (errors_load_nothing _ Hl) as (-> & _);
      eexists; reflexivity.
  - rewrite Hf; simpl; eexists; reflexivity.
  - destruct (loads_before_dump body (exit_status env args =? 0)%nat
                (dump_target args)
                (prepare_for_dump env
                   (merge_all env (new_merger env d) (merged_data body))))
      as (-> & _).
    rewrite Hl, Hf; simpl; eexists; reflexivity.
  - destruct (loads_before_dump body (exit_status env args =? 0)%nat
                (dump_target args)
                (prepare_for_dump env
                   (merge_all env (new_merger env d) (merged_data body))))
      as (-> & _).
    exact Hpre.
Qed.

(** ** The sources of a run *)

(** X13: the sources a run hands to the loader are, in this order, the files
    of the command line and then STDIN where it is implied, or an initial
    stretch of them: no source is loaded out of turn or twice over. *)
Theorem sources_are_loaded_in_order :
  exists rest,
    (rhs_files args ++ repeat "-" (implied_stdin env args))%list
    = (loads (actions env args) ++ rest)%list.
Proof. exact run_loads_in_order. Qed.

(** X14: a run that ends with status 0 has loaded every file of the command
    line, and STDIN after them where it is implied; it has handed to
    [merge_with], in order, the further documents of a multi-document first
    file and then every other source, once each, and none of these merges
    raised. *)
Theorem success_merges_every_source :
  exit_status env args = 0 ->
  loads (actions env args)
  = (rhs_files args ++ repeat "-" (implied_stdin env args))%list
  /\ map fst (merges (actions env args))
     = (present_parts (prime_rest env args) 0
        ++ map RhsSource
             (tl (rhs_files args
                  ++ repeat "-" (implied_stdin env args))))%list
  /\ forallb went_well (merges (actions env args)) = true.
Proof.
  intros H0.
  destruct run_facts
    as [(_ & He & _)
       |(prime_file & fileiterator & Hf & _
         & [(_ & He & _)
           |(d & body & _ & Ha
             & [(_ & He & _)|(_ & _ & _ & Hall)])])];
    try (rewrite H0 in He; discriminate He);
    try (rewrite H0 in He; destruct He; discriminate).
  destruct (Hall H0) as (Hl & Hok & Hor).
  rewrite Ha.
  destruct (loads_before_dump body (exit_status env args =? 0)%nat
              (dump_target args)
              (prepare_for_dump env
                 (merge_all env (new_merger env d) (merged_data body))))
    as (-> & -> & _).
  rewrite Hl, Hok, Hor, Hf; auto.
Qed.

(** X15: whatever a run dumps is what [prepare_for_dump] makes of the
    merger created from the first document after [merge_with] was called
    on it with each of the data the run merged, in order; and it goes to
    the file of [--output], or to STDOUT without one. *)
Theorem dump_is_the_merger_after_every_merge target data :
  In (Dump target data) (actions env args) ->
  target = dump_target args
  /\ exists d,
      first_document env args = Some d
      /\ data = prepare_for_dump env
                  (merge_all env (new_merger env d)
                     (merged_data (actions env args))).
Proof.
  intros Hin.
  destruct (main_status env args) as (log & st & E & _ & Hn & Hz).
  assert (Ha : actions env args = log) by (unfold actions; now rewrite E).
  assert (He : exit_status env args = st)
    by (unfold exit_status; now rewrite E).
  destruct (Nat.eq_dec st 0) as [->|Hnz].
  2: { rewrite Ha in Hin; now apply (no_dump_in _ (Hn Hnz)) in Hin. }
  destruct (Hz eq_refl) as (pre & t & m & Hlog & Hpre).
  destruct run_facts
    as [(_ & He' & _)
       |(prime_file & fileiterator & Hf & _
         & [(_ & He' & _)
           |(d & body & Hd & Hb & _)])];
    try (rewrite He in He'; discriminate He').
  rewrite He in Hb; simpl in Hb.
  assert (Hm : merged_data (actions env args) = merged_data body).
  { rewrite Hb, merged_data_app; simpl; now rewrite app_nil_r. }
  rewrite Ha, Hlog in Hb; apply app_inj_tail in Hb as (-> & Hdump).
  rewrite Ha, Hlog in Hin; apply in_app_or in Hin as [Hin|[Hin|[]]].
  { now apply (no_dump_in _ Hpre) in Hin. }
  rewrite Hdump in Hin; injection Hin as <- <-.
  split; [reflexivity|].
  exists d; split; [exact Hd|now rewrite Hm].
Qed.

Lemma dashes_are_pseudofiles (l : list string) :
  count_occ string_dec l "-" <= List.length (filter is_pseudofile l).
Proof.
  induction l as [|x l IH]; simpl; trivial.
  destruct (string_dec x "-") as [->|Hne].
  - change (is_pseudofile "-") with true; simpl; lia.
  - destruct (is_pseudofile x); simpl; lia.
Qed.

(** X16: STDIN is handed to the loader at most once in a run, whether it is
    named among the files or implied. *)
Theorem stdin_is_loaded_at_most_once :
  count_occ string_dec (loads (actions env args)) "-" <= 1.
Proof.
  destruct (validation_passes env args) eqn:Hv; unfold validation_passes in Hv.
  - apply negb_true_iff in Hv.
    destruct run_loads_in_order as (rest & Hpre).
    apply (f_equal (fun l => count_occ string_dec l "-")) in Hpre.
    rewrite !count_occ_app in Hpre.
    pose proof (dashes_are_pseudofiles (rhs_files args)) as Hc.
    assert (Hm : many_pseudofiles args = false)
      by (destruct (too_few_files env args), (many_pseudofiles args);
          trivial; discriminate).
    unfold many_pseudofiles in Hm; apply Nat.ltb_ge in Hm.
    unfold implied_stdin, pseudofile_count in *.
    destruct (negb (stdin_isatty env) && negb (nostdin args)); simpl in Hpre.
    + destruct (Nat.eqb_spec (List.length (filter is_pseudofile
                                             (rhs_files args))) 0)
        as [H0|H0]; simpl in Hpre; lia.
    + lia.
  - apply negb_false_iff in Hv.
    destruct (main_when_validation_fails env args Hv) as (_ & Hl & _).
    destruct (errors_load_nothing _ Hl) as (-> & _); simpl; lia.
Qed.

(** X17: no merge is attempted after one that raised, unless the first file
    is a multi-document one and the run ends with 6 or 7, the statuses of a
    failure among its further documents. *)
Theorem merging_stops_at_first_failure_of_a_right_hand_source :
  stops_at_first_failure (merges (actions env args)) = true
  \/ (prime_is_multidoc env args = true
      /\ (exit_status env args = 6 \/ exit_status env args = 7)).
Proof.
  destruct run_facts
    as [(_ & _ & Hl)
       |(prime_file & fileiterator & _ & _
         & [(_ & _ & ->)
           |(d & body & _ & Ha
             & [(Hmulti & He & _)|(_ & Hstop & _)])])].
  - left; now destruct (errors_load_nothing _ Hl) as (_ & ->).
  - left; reflexivity.
  - right; auto.
  - left; rewrite Ha.
    destruct (loads_before_dump body (exit_status env args =? 0)%nat
                (dump_target args)
                (prepare_for_dump env
                   (merge_all env (new_merger env d) (merged_data body))))
      as (_ & -> & _).
    exact Hstop.
Qed.

(** X18: when [--config] names something that is not a readable file, the
    run ends with status 1, having logged that and done nothing else than
    log errors: no source was read and nothing was written. *)
Theorem unreadable_config_rejected (path : string) :
  config args = Some path ->
  path <> "" ->
  isfile env path && access_R_OK env path = false ->
  exit_status env args = 1
  /\ forallb is_log_error (actions env args) = true
  /\ In (LogError (ConfigNotReadable path)) (actions env args).
Proof.
  intros Hcfg Hpath Hbad.
  assert (Hc : config_unreadable env args = true).
  { unfold config_unreadable; rewrite Hcfg; simpl.
    apply String.eqb_neq in Hpath; now rewrite Hpath, Hbad. }
  destruct (main_when_validation_fails env args) as (He & Hl & _).
  { now rewrite Hc, orb_true_r. }
  split; [exact He|split; [exact Hl|]].
  unfold actions, main, validateargs, check; rewrite Hc, Hcfg.
  destruct (too_few_files env args), (many_pseudofiles args),
    (output_exists env args); simpl; auto 6.
Qed.

(** X19: a run that ends with 6 or 7 has a multi-document first file and has
    loaded nothing but that file; it has handed each of the further
    documents of the file that is not [None] to [merge_with], and nothing
    else. *)
Theorem failed_first_file_ends_the_run :
  exit_status env args = 6 \/ exit_status env args = 7 ->
  prime_is_multidoc env args = true
  /\ loads (actions env args) = firstn 1 (rhs_files args)
  /\ map fst (merges (actions env args))
     = present_parts (prime_rest env args) 0.
Proof.
  intros H67.
  destruct run_facts
    as [(_ & He & _)
       |(prime_file & fileiterator & Hf & _
         & [(_ & He & _)
           |(d & body & _ & Ha
             & [(Hmulti & _ & Hl & Hp)|(Hin & _)])])];
    try (rewrite He in H67; destruct H67; discriminate).
  - split; [exact Hmulti|].
    rewrite Ha.
    destruct (loads_before_dump body (exit_status env args =? 0)%nat
                (dump_target args)
                (prepare_for_dump env
                   (merge_all env (new_merger env d) (merged_data body))))
      as (-> & -> & _).
    rewrite Hl, Hp, Hf; auto.
  - simpl in Hin; destruct H67 as [H|H]; rewrite H in Hin;
      repeat (destruct Hin as [Hin|Hin]; [discriminate Hin|]);
      destruct Hin.
Qed.

End MoreMergeFacts.

(** A [-] behind a no-break space (U+00A0, the bytes C2 A0) is the
    pseudo-file to [validateargs] and to [main], as [str.strip()] removes
    the space; behind the byte A0 alone, or behind a zero-width space
    (U+200B), it is not. *)
Example spaced_dash_is_the_pseudofile :
  is_pseudofile (String "194" (String "160" "-")) = true
  /\ is_pseudofile (String "160" "-") = false
  /\ is_pseudofile (String "226" (String "128" (String "139" "-"))) = false.
Proof. repeat split; reflexivity. Qed.

Lemma success_merges_every_source_witness :
  MergeProperties.loads (actions MergeProperties.env_piped
           (sample_args ["a.yaml"; "b.yaml"] None))
  = ["a.yaml"; "b.yaml"; "-"]
  /\ map fst (merges (actions MergeProperties.env_piped
                        (sample_args ["a.yaml"; "b.yaml"] None)))
     = [RhsSource "b.yaml"; RhsSource "-"]
  /\ forallb MergeProperties.went_well
             (merges (actions MergeProperties.env_piped
                        (sample_args ["a.yaml"; "b.yaml"] None))) = true.
Proof.
  apply (success_merges_every_source MergeProperties.env_piped
           (sample_args ["a.yaml"; "b.yaml"] None)).
  reflexivity.
Defined.

Lemma dump_is_the_merger_after_every_merge_witness :
  Some "out.yaml"
  = MergeProperties.dump_target
      (sample_args ["a.yaml"; "b.yaml"] (Some "out.yaml"))
  /\ exists d,
      MergeProperties.first_document MergeProperties.env_piped
        (sample_args ["a.yaml"; "b.yaml"] (Some "out.yaml")) = Some d
      /\ [1; 2; 9]
         = prepare_for_dump MergeProperties.env_piped
             (MergeProperties.merge_all MergeProperties.env_piped
                (new_merger MergeProperties.env_piped d)
                (MergeProperties.merged_data
                   (actions MergeProperties.env_piped
                      (sample_args ["a.yaml"; "b.yaml"]
                         (Some "out.yaml"))))).
Proof.
  apply (dump_is_the_merger_after_every_merge MergeProperties.env_piped
           (sample_args ["a.yaml"; "b.yaml"] (Some "out.yaml"))
           (Some "out.yaml") [1; 2; 9]).
  vm_compute; auto 10.
Defined.

Lemma unreadable_config_rejected_witness :
  exit_status env_two_files
    (mkArgs ["a.yaml"; "b.yaml"] (Some "missing.ini") None false) = 1
  /\ forallb is_log_error
       (actions env_two_files
          (mkArgs ["a.yaml"; "b.yaml"] (Some "missing.ini") None false))
     = true
  /\ In (LogError (ConfigNotReadable "missing.ini"))
        (actions env_two_files
           (mkArgs ["a.yaml"; "b.yaml"] (Some "missing.ini") None false)).
Proof.
  apply (unreadable_config_rejected env_two_files
           (mkArgs ["a.yaml"; "b.yaml"] (Some "missing.ini") None false)
           "missing.ini").
  - reflexivity.
  - discriminate.
  - reflexivity.
Defined.

Lemma failed_first_file_ends_the_run_witness :
  MergeProperties.prime_is_multidoc env_broken_stream
    (sample_args ["a.yaml"; "b.yaml"] None) = true
  /\ MergeProperties.loads
       (actions env_broken_stream (sample_args ["a.yaml"; "b.yaml"] None))
     = ["a.yaml"]
  /\ map fst (merges (actions env_broken_stream
                        (sample_args ["a.yaml"; "b.yaml"] None)))
     = [PrimePart 1; PrimePart 2].
Proof.
  apply (failed_first_file_ends_the_run env_broken_stream
           (sample_args ["a.yaml"; "b.yaml"] None)).
  left; reflexivity.
Defined.
